(** * dbrt: range-observation likelihood, joint-filter builder, arm animator

    A shallow embedding of three pieces of the dbrt sources:

    - [KinectObserver] (kinect_observer.hpp): the likelihood of one depth
      measurement given a predicted depth and an occlusion flag;
    - [RotaryTrackerBuilder] (rotary_tracker_builder.h): the loop that
      builds one joint filter per kinematic joint;
    - [ArmRobotAnimator] (arm_robot_emulator_node.cpp): the in-place
      update of the two arm segments of a robot state vector.

    Numbers.  The C++ type [double] is idealised: a [Scalar] is a real
    number, one of the two infinities, or NaN.  Arithmetic on finite
    values is exact real arithmetic (no rounding, no overflow, a single
    unsigned zero, read as +0 where a sign is needed); on the special
    values, and where a finite operation has no real result (division by
    zero, logarithm of a non-positive number, square root of a negative
    one), the operations follow IEEE 754.  The source tests [isinf], so
    the infinities are part of the data the program is written for.

    The exact arithmetic states what each formula computes.  It cannot
    say when a result is defined: in binary64 a finite operation may
    overflow or round to zero.  Properties about the sign and the
    definedness of a result are therefore stated over a second embedding
    of the same functions, module [Rounded], in which every finite
    operation passes through a rounding function of which only the
    properties of IEEE 754 rounding are assumed. *)

From Stdlib Require Import Reals Lra Lia ZArith List Bool.
From Equations Require Import Equations.
Import ListNotations.

(* ================================================================= *)
(** ** The error function *)

(** [erf] comes from the C math library.  Here it is the real function
    it approximates,
      erf x = sign x * (int_0^|x| exp (-t^2) dt) / (int_0^oo exp (-t^2) dt),
    built from the Riemann integral of the Standard Library.  The
    improper integral in the denominator is the least upper bound of the
    partial integrals. *)

Module ErrorFunction.
Local Open Scope R_scope.

Definition gauss (t : R) : R := exp (- (t * t)).

Lemma gauss_continuity : continuity gauss.
Proof. unfold gauss. reg. Qed.

Lemma gauss_pos t : 0 < gauss t.
Proof. apply exp_pos. Qed.

Lemma gauss_le_1 t : gauss t <= 1.
Proof.
  unfold gauss. rewrite <- exp_0.
  destruct (Req_dec (t * t) 0) as [E | E].
  - rewrite E, Ropp_0. lra.
  - left. apply exp_increasing. nra.
Qed.

Definition gauss_integrable (a b : R) : Riemann_integrable gauss a b.
Proof.
  destruct (Rle_dec a b) as [H | H].
  - apply continuity_implies_RiemannInt; [exact H | intros; apply gauss_continuity].
  - apply RiemannInt_P1, continuity_implies_RiemannInt;
      [lra | intros; apply gauss_continuity].
Defined.

(** [gauss_int x] is the integral of [gauss] from 0 to [x]. *)
Definition gauss_int (x : R) : R := RiemannInt (gauss_integrable 0 x).

Lemma gauss_int_0 : gauss_int 0 = 0.
Proof. apply RiemannInt_P9. Qed.

Lemma gauss_between a b (H : a <= b) (pr : Riemann_integrable gauss a b) :
  0 <= RiemannInt pr <= b - a.
Proof.
  assert (Hb : forall x, a < x < b -> 0 <= gauss x <= 1).
  { intros x _. split; [left; apply gauss_pos | apply gauss_le_1]. }
  pose proof (@RiemannInt_const_bound gauss a b 0 1 pr H Hb). lra.
Qed.

Lemma gauss_int_chasles a b :
  gauss_int b = gauss_int a + RiemannInt (gauss_integrable a b).
Proof. unfold gauss_int. symmetry. apply RiemannInt_P26. Qed.

Lemma gauss_int_mono a b : a <= b -> gauss_int a <= gauss_int b.
Proof.
  intros H. rewrite (gauss_int_chasles a b).
  pose proof (gauss_between a b H (gauss_integrable a b)). lra.
Qed.

Lemma gauss_lower a b x : a < x < b -> Rmin (gauss a) (gauss b) <= gauss x.
Proof.
  intros Hx. unfold gauss.
  destruct (Rle_dec (x * x) (a * a)) as [Ha | Ha].
  - eapply Rle_trans; [apply Rmin_l | ].
    destruct Ha as [Ha | Ha]; [left; apply exp_increasing; lra | rewrite Ha; lra].
  - eapply Rle_trans; [apply Rmin_r | ].
    left; apply exp_increasing.
    apply Rnot_le_lt in Ha.
    destruct (Rle_dec 0 x) as [H0 | H0]; [ | exfalso]; nra.
Qed.

Lemma gauss_int_incr a b : a < b -> gauss_int a < gauss_int b.
Proof.
  intros H. rewrite (gauss_int_chasles a b).
  assert (Hm : 0 < Rmin (gauss a) (gauss b)).
  { apply Rmin_glb_lt; apply gauss_pos. }
  assert (Hb : forall x, a < x < b -> Rmin (gauss a) (gauss b) <= gauss x <= 1).
  { intros x Hx. split; [apply gauss_lower, Hx | apply gauss_le_1]. }
  pose proof (@RiemannInt_const_bound gauss a b _ 1 (gauss_integrable a b)
                (Rlt_le _ _ H) Hb) as [H0 _].
  assert (0 < Rmin (gauss a) (gauss b) * (b - a)) by (apply Rmult_lt_0_compat; lra).
  lra.
Qed.

(** A majorant with a known primitive: exp (-t^2) <= 1 / (1 + t^2), and
    atan stays below PI / 2. *)

Lemma continuity_ext (f g : R -> R) :
  (forall x, f x = g x) -> continuity f -> continuity g.
Proof.
  intros E Hf x eps He. destruct (Hf x eps He) as [d [Hd H]].
  exists d. split; [exact Hd | ]. intros y Hy. rewrite <- !E. apply H, Hy.
Qed.

Definition derivable_atan : derivable atan := derivable_pt_atan.

Lemma continuity_derive_atan : continuity (derive atan derivable_atan).
Proof.
  apply continuity_ext with (f := fun x => 1 / (1 + x²)).
  - intros x. unfold derive.
    rewrite <- (derive_pt_atan x). apply pr_nu.
  - unfold Rsqr. intros x. reg. nra.
Qed.

Definition atan_C1 : C1_fun := mkC1 continuity_derive_atan.

Lemma gauss_le_datan t : gauss t <= derive atan_C1 (diff0 atan_C1) t.
Proof.
  unfold derive. simpl.
  rewrite (pr_nu atan t _ (derivable_pt_atan t)), derive_pt_atan.
  unfold gauss, Rsqr. rewrite exp_Ropp.
  pose proof (exp_ineq1_le (t * t)).
  unfold Rdiv. rewrite Rmult_1_l. apply Rinv_le_contravar; nra.
Qed.

Lemma gauss_int_bound x : 0 <= x -> gauss_int x < PI / 2.
Proof.
  intros Hx.
  assert (pr : Riemann_integrable (derive atan_C1 (diff0 atan_C1)) 0 x).
  { apply continuity_implies_RiemannInt; [exact Hx | intros; apply (cont1 atan_C1)]. }
  apply Rle_lt_trans with (RiemannInt pr).
  - apply RiemannInt_P19; [exact Hx | intros; apply gauss_le_datan].
  - rewrite FTC_Riemann. simpl. rewrite atan_0.
    pose proof (atan_bound x). lra.
Qed.

(** The values of the partial integrals over [0, x], x >= 0. *)
Definition gauss_partial (v : R) : Prop := exists x, 0 <= x /\ v = gauss_int x.

Lemma gauss_partial_bound : bound gauss_partial.
Proof.
  exists (PI / 2). intros v [x [Hx ->]]. left. apply gauss_int_bound, Hx.
Qed.

Lemma gauss_partial_inhabited : exists v, gauss_partial v.
Proof. exists (gauss_int 0), 0. split; [lra | reflexivity]. Qed.

(** The integral of [gauss] over the half line. *)
Definition gauss_total : R :=
  proj1_sig (completeness gauss_partial gauss_partial_bound gauss_partial_inhabited).

Definition erf (x : R) : R :=
  if Rle_dec 0 x then gauss_int x / gauss_total
  else - (gauss_int (- x) / gauss_total).

Lemma gauss_total_lub : is_lub gauss_partial gauss_total.
Proof.
  unfold gauss_total.
  destruct (completeness gauss_partial gauss_partial_bound gauss_partial_inhabited).
  assumption.
Qed.

Lemma gauss_int_lt_total x : 0 <= x -> gauss_int x < gauss_total.
Proof.
  intros Hx. apply Rlt_le_trans with (gauss_int (x + 1)).
  - apply gauss_int_incr. lra.
  - apply (proj1 gauss_total_lub). exists (x + 1). split; [lra | reflexivity].
Qed.

Lemma gauss_total_pos : 0 < gauss_total.
Proof. rewrite <- gauss_int_0. apply gauss_int_lt_total. lra. Qed.

Lemma erf_0 : erf 0 = 0.
Proof.
  unfold erf. destruct (Rle_dec 0 0); [ | lra].
  rewrite gauss_int_0. unfold Rdiv. apply Rmult_0_l.
Qed.

Lemma erf_ratio x : 0 <= x -> 0 <= gauss_int x / gauss_total < 1.
Proof.
  intros Hx. pose proof gauss_total_pos as HL.
  pose proof (gauss_int_lt_total x Hx) as Hlt.
  assert (H0 : 0 <= gauss_int x) by (rewrite <- gauss_int_0; apply gauss_int_mono, Hx).
  split.
  - apply Rmult_le_pos; [exact H0 | left; apply Rinv_0_lt_compat, HL].
  - apply Rmult_lt_reg_r with gauss_total; [exact HL | ].
    unfold Rdiv. rewrite Rmult_assoc, Rinv_l; lra.
Qed.

Lemma erf_nonneg x : 0 <= x -> 0 <= erf x.
Proof.
  intros Hx. unfold erf. destruct (Rle_dec 0 x); [ | lra].
  apply erf_ratio, Hx.
Qed.

Lemma erf_range x : -1 < erf x < 1.
Proof.
  unfold erf. destruct (Rle_dec 0 x) as [H | H].
  - pose proof (erf_ratio x H). lra.
  - assert (H' : 0 <= - x) by lra. pose proof (erf_ratio (- x) H'). lra.
Qed.

Lemma erf_odd x : erf (- x) = - erf x.
Proof.
  destruct (Req_dec x 0) as [-> | Hx].
  - rewrite Ropp_0, erf_0. lra.
  - unfold erf. destruct (Rle_dec 0 x), (Rle_dec 0 (- x)); try lra.
    rewrite Ropp_involutive. lra.
Qed.

Lemma erf_increasing x y : x < y -> erf x < erf y.
Proof.
  intros Hxy. pose proof gauss_total_pos as HL.
  assert (Hdiv : forall a b, a < b -> a / gauss_total < b / gauss_total).
  { intros a b Hab. unfold Rdiv. apply Rmult_lt_compat_r;
      [apply Rinv_0_lt_compat, HL | exact Hab]. }
  unfold erf. destruct (Rle_dec 0 x) as [Hx | Hx], (Rle_dec 0 y) as [Hy | Hy];
    try lra.
  - apply Hdiv, gauss_int_incr, Hxy.
  - assert (H1 : 0 < gauss_int (- x) / gauss_total).
    { replace 0 with (0 / gauss_total) by (unfold Rdiv; ring).
      apply Hdiv. rewrite <- gauss_int_0. apply gauss_int_incr. lra. }
    assert (H2 : 0 <= gauss_int y / gauss_total) by (apply erf_ratio, Hy).
    lra.
  - assert (H1 : gauss_int (- y) / gauss_total < gauss_int (- x) / gauss_total).
    { apply Hdiv, gauss_int_incr. lra. }
    lra.
Qed.

(** [erf] tends to 1 at +infinity: the normalisation is the right one. *)
Lemma erf_limit eps :
  0 < eps -> exists x0, forall x, x0 <= x -> 1 - eps < erf x.
Proof.
  intros Heps. pose proof gauss_total_pos as HL.
  destruct gauss_total_lub as [Hub Hleast].
  assert (Hex : exists x0, 0 <= x0 /\ gauss_total * (1 - eps) < gauss_int x0).
  { apply Classical_Prop.NNPP. intros Hno.
    assert (Hb : is_upper_bound gauss_partial (gauss_total * (1 - eps))).
    { intros v [x [Hx ->]].
      destruct (Rle_lt_dec (gauss_int x) (gauss_total * (1 - eps))) as [Hle | Hlt];
        [exact Hle | ].
      exfalso. apply Hno. exists x. split; assumption. }
    specialize (Hleast _ Hb). nra. }
  destruct Hex as (x0 & Hx0 & Hlt). exists x0. intros x Hx.
  unfold erf. destruct (Rle_dec 0 x) as [H0 | H0]; [ | lra].
  apply Rlt_le_trans with (gauss_int x0 / gauss_total).
  - apply Rmult_lt_reg_r with gauss_total; [exact HL | ].
    unfold Rdiv. rewrite Rmult_assoc, Rinv_l by lra. lra.
  - unfold Rdiv. apply Rmult_le_compat_r;
      [left; apply Rinv_0_lt_compat, HL | apply gauss_int_mono, Hx].
Qed.

End ErrorFunction.

(* ================================================================= *)
(** ** Scalars: idealised [double] *)

Inductive Scalar : Type :=
| Fin (r : R)             (* a finite value *)
| Inf (negative : bool)   (* +infinity (false) or -infinity (true) *)
| NaN.

Abbreviation PInf := (Inf false).
Abbreviation NInf := (Inf true).

Declare Scope scalar_scope.
Delimit Scope scalar_scope with S.
Bind Scope scalar_scope with Scalar.

(** Sign bit of a finite value; zero counts as +0. *)
Definition Rsignbit (r : R) : bool := if Rlt_dec r 0 then true else false.

Definition Sneg (x : Scalar) : Scalar :=
  match x with
  | Fin a => Fin (- a)
  | Inf s => Inf (negb s)
  | NaN => NaN
  end.

Definition Sadd (x y : Scalar) : Scalar :=
  match x, y with
  | NaN, _ | _, NaN => NaN
  | Fin a, Fin b => Fin (a + b)
  | Fin _, Inf s | Inf s, Fin _ => Inf s
  | Inf s, Inf t => if Bool.eqb s t then Inf s else NaN
  end.

Definition Ssub (x y : Scalar) : Scalar := Sadd x (Sneg y).

Definition Smul (x y : Scalar) : Scalar :=
  match x, y with
  | NaN, _ | _, NaN => NaN
  | Fin a, Fin b => Fin (a * b)
  | Fin a, Inf s | Inf s, Fin a =>
      if Req_dec_T a 0 then NaN else Inf (xorb (Rsignbit a) s)
  | Inf s, Inf t => Inf (xorb s t)
  end.

Definition Sdiv (x y : Scalar) : Scalar :=
  match x, y with
  | NaN, _ | _, NaN => NaN
  | Fin a, Fin b =>
      if Req_dec_T b 0
      then (if Req_dec_T a 0 then NaN else Inf (Rsignbit a))
      else Fin (a / b)
  | Fin _, Inf _ => Fin 0
  | Inf s, Fin b => Inf (xorb s (Rsignbit b))
  | Inf _, Inf _ => NaN
  end.

Notation "x + y" := (Sadd x y) : scalar_scope.
Notation "x - y" := (Ssub x y) : scalar_scope.
Notation "x * y" := (Smul x y) : scalar_scope.
Notation "x / y" := (Sdiv x y) : scalar_scope.
Notation "- x" := (Sneg x) : scalar_scope.

(** The functions of <cmath> the sources call, under the names the
    sources use ([std::exp], [std::log], ...). *)

Module std.

Definition isinf (x : Scalar) : bool :=
  match x with Inf _ => true | _ => false end.

Definition exp (x : Scalar) : Scalar :=
  match x with
  | Fin a => Fin (Rtrigo_def.exp a)
  | PInf => PInf
  | NInf => Fin 0
  | NaN => NaN
  end.

Definition log (x : Scalar) : Scalar :=
  match x with
  | Fin a =>
      if Rlt_dec 0 a then Fin (ln a)
      else if Req_dec_T a 0 then NInf else NaN
  | PInf => PInf
  | NInf => NaN
  | NaN => NaN
  end.

Definition sqrt (x : Scalar) : Scalar :=
  match x with
  | Fin a => if Rle_dec 0 a then Fin (R_sqrt.sqrt a) else NaN
  | PInf => PInf
  | NInf => NaN
  | NaN => NaN
  end.

Definition erf (x : Scalar) : Scalar :=
  match x with
  | Fin a => Fin (ErrorFunction.erf a)
  | PInf => Fin 1
  | NInf => Fin (-1)
  | NaN => NaN
  end.

Definition sin (x : Scalar) : Scalar :=
  match x with
  | Fin a => Fin (Rtrigo_def.sin a)
  | Inf _ => NaN
  | NaN => NaN
  end.

(** [pow] with a non-negative integer exponent, the only use the sources
    make of it ([pow (x, 2)]): repeated multiplication, [pow (x, 0) = 1]. *)
Fixpoint pow (x : Scalar) (n : nat) : Scalar :=
  match n with
  | O => Fin 1
  | S O => x
  | S n' => Smul x (pow x n')
  end.

Definition M_PI : Scalar := Fin PI.

End std.

(** What a call does: it returns a value or it throws.  The error kinds
    are the ones the specification names. *)
Inductive exception : Type :=
| ConfigurationError
| DimensionMismatchError
| NumericalError
| DegenerateFilterError.

Inductive outcome (A : Type) : Type :=
| Returns (a : A)
| Throws (e : exception).

Arguments Returns {A} a.
Arguments Throws {A} e.

(* ================================================================= *)
(** ** KinectObserver (kinect_observer.hpp) *)

Section KinectObserverModel.
Local Open Scope scalar_scope.

(** The data members.  The five parameters are [const]; [prediction_]
    and [occlusion_] are the context that [Condition] stores. *)
Record KinectObserver : Type := {
  exponential_rate_ : Scalar;
  tail_weight_ : Scalar;
  model_sigma_ : Scalar;
  sigma_factor_ : Scalar;
  max_depth_ : Scalar;
  prediction_ : Scalar;
  occlusion_ : bool
}.

(** The constructor's member initialiser list.  It has no body and no
    check of its arguments.  [prediction_] and [occlusion_] are not
    initialised by it: their indeterminate values are the last two
    arguments here. *)
Definition new_KinectObserver
  (tail_weight model_sigma sigma_factor half_life_depth max_depth : Scalar)
  (indeterminate_prediction : Scalar) (indeterminate_occlusion : bool)
  : KinectObserver :=
  {| exponential_rate_ := - std.log (Fin 0.5) / half_life_depth;
     tail_weight_ := tail_weight;
     model_sigma_ := model_sigma;
     sigma_factor_ := sigma_factor;
     max_depth_ := max_depth;
     prediction_ := indeterminate_prediction;
     occlusion_ := indeterminate_occlusion |}.

(** The default arguments of the constructor. *)
Definition default_tail_weight : Scalar := Fin 0.01.
Definition default_model_sigma : Scalar := Fin 0.003.
Definition default_sigma_factor : Scalar := Fin 0.00142478.
Definition default_half_life_depth : Scalar := Fin 1.0.
Definition default_max_depth : Scalar := Fin 6.0.

Definition Probability (this : KinectObserver) (observation : Scalar) : Scalar :=
  let sigma :=
    this.(model_sigma_) + this.(sigma_factor_) * observation * observation in
  if negb this.(occlusion_) then
    if std.isinf this.(prediction_) then
      this.(tail_weight_) / this.(max_depth_)
    else
      this.(tail_weight_) / this.(max_depth_)
      + (Fin 1 - this.(tail_weight_))
        * std.exp (- (std.pow (this.(prediction_) - observation) 2
                      / (Fin 2 * sigma * sigma)))
        / (std.sqrt (Fin 2 * std.M_PI) * sigma)
  else
    if std.isinf this.(prediction_) then
      this.(tail_weight_) / this.(max_depth_)
      + (Fin 1 - this.(tail_weight_)) * this.(exponential_rate_)
        * std.exp (Fin 0.5 * this.(exponential_rate_)
                   * (- Fin 2 * observation
                      + this.(exponential_rate_) * sigma * sigma))
    else
      this.(tail_weight_) / this.(max_depth_)
      + (Fin 1 - this.(tail_weight_)) * this.(exponential_rate_)
        * std.exp (Fin 0.5 * this.(exponential_rate_)
                   * (Fin 2 * this.(prediction_) - Fin 2 * observation
                      + this.(exponential_rate_) * sigma * sigma))
        * (Fin 1 + std.erf ((this.(prediction_) - observation
                             + this.(exponential_rate_) * sigma * sigma)
                            / (std.sqrt (Fin 2) * sigma)))
        / (Fin 2 * (std.exp (this.(prediction_) * this.(exponential_rate_)) - Fin 1)).

Definition LogProbability (this : KinectObserver) (observation : Scalar) : Scalar :=
  std.log (Probability this observation).

Definition Condition (this : KinectObserver) (prediction : Scalar) (occlusion : bool)
  : KinectObserver :=
  {| exponential_rate_ := this.(exponential_rate_);
     tail_weight_ := this.(tail_weight_);
     model_sigma_ := this.(model_sigma_);
     sigma_factor_ := this.(sigma_factor_);
     max_depth_ := this.(max_depth_);
     prediction_ := prediction;
     occlusion_ := occlusion |}.

(** Calls from a client.  A call leaves the object in a new state and
    either returns or throws.  No member function contains a [throw], and
    the functions of <cmath> report domain errors through their results
    (infinities and NaN), so every call returns. *)
Inductive call : Type :=
| Call_Condition (prediction : Scalar) (occlusion : bool)
| Call_Probability (observation : Scalar)
| Call_LogProbability (observation : Scalar).

Inductive reply : Type :=
| Void
| Value (v : Scalar).

Definition construct
  (tail_weight model_sigma sigma_factor half_life_depth max_depth : Scalar)
  (indeterminate_prediction : Scalar) (indeterminate_occlusion : bool)
  : outcome KinectObserver :=
  Returns (new_KinectObserver tail_weight model_sigma sigma_factor
             half_life_depth max_depth
             indeterminate_prediction indeterminate_occlusion).

Definition invoke (this : KinectObserver) (c : call)
  : KinectObserver * outcome reply :=
  match c with
  | Call_Condition prediction occlusion =>
      (Condition this prediction occlusion, Returns Void)
  | Call_Probability observation =>
      (this, Returns (Value (Probability this observation)))
  | Call_LogProbability observation =>
      (this, Returns (Value (LogProbability this observation)))
  end.

(** A sequence of calls on one object: the final state and the replies
    in call order. *)
Fixpoint run (this : KinectObserver) (cs : list call)
  : KinectObserver * list (outcome reply) :=
  match cs with
  | [] => (this, [])
  | c :: cs' =>
      let (this', r) := invoke this c in
      let (this'', rs) := run this' cs' in
      (this'', r :: rs)
  end.

Definition is_query (c : call) : bool :=
  match c with
  | Call_Condition _ _ => false
  | Call_Probability _ => true
  | Call_LogProbability _ => true
  end.

(** *** Vocabulary of the properties *)

(** The observer built from the default arguments, with [prediction_] and
    [occlusion_] still indeterminate. *)
Definition default_observer (u : Scalar) (b : bool) : KinectObserver :=
  new_KinectObserver default_tail_weight default_model_sigma default_sigma_factor
    default_half_life_depth default_max_depth u b.

(** The noise scale of the likelihood law, on reals. *)
Definition sigma_of (model_sigma sigma_factor obs : R) : R :=
  (model_sigma + sigma_factor * obs ^ 2)%R.

(** An observer whose five parameters are finite. *)
Definition finite_parameters (this : KinectObserver)
  (rate tail_weight model_sigma sigma_factor max_depth : R) : Prop :=
  this.(exponential_rate_) = Fin rate /\
  this.(tail_weight_) = Fin tail_weight /\
  this.(model_sigma_) = Fin model_sigma /\
  this.(sigma_factor_) = Fin sigma_factor /\
  this.(max_depth_) = Fin max_depth.

(** The valid parameter sets of the specification. *)
Definition valid_parameters (tail_weight model_sigma sigma_factor
                             half_life_depth max_depth : R) : Prop :=
  (0 < tail_weight < 1 /\ 0 <= model_sigma /\ 0 <= sigma_factor /\
   0 < half_life_depth /\ 0 < max_depth)%R.

End KinectObserverModel.

(* ================================================================= *)
(** ** Counted loops *)

(** [for (int i = lo; i < hi; ++i) body], for a body that changes neither
    [i] nor the bound: the test is made before every round, and the loop
    ends since [hi - i] decreases.  The counter stays within [lo, hi], so
    within the range of [int] when the bounds are. *)

Section Loops.
Context {St : Type}.

Equations? for_loop (i hi : Z) (body : Z -> St -> St) (s : St) : St
  by wf (Z.to_nat (hi - i)) lt :=
for_loop i hi body s with Z_lt_dec i hi := {
  | left _ => for_loop (i + 1) hi body (body i s)
  | right _ => s
}.
Proof. lia. Qed.

End Loops.

(** The [n] integers from [lo] upwards. *)
Fixpoint Zrange (lo : Z) (n : nat) : list Z :=
  match n with
  | O => []
  | S n' => lo :: Zrange (lo + 1) n'
  end.

(* ================================================================= *)
(** ** RotaryTrackerBuilder (rotary_tracker_builder.h) *)

(** The builder is a template over [Tracker] and holds three collaborators
    whose classes are declared elsewhere; the builder uses one member
    function of each.  They are the interface below. *)
Class TrackerInterface : Type := {
  Tracker : Type;
  JointFilter : Type;
  Transition : Type;
  Sensor : Type;
  KinematicsFromURDF : Type;
  FactorizedTransitionBuilder : Type;
  RotarySensorBuilder : Type;
  (* int KinematicsFromURDF::num_joints() *)
  num_joints : KinematicsFromURDF -> Z;
  (* FactorizedTransitionBuilder<Tracker>::build(int) *)
  transition_build : FactorizedTransitionBuilder -> Z -> Transition;
  (* RotarySensorBuilder<Tracker>::build(int) *)
  sensor_build : RotarySensorBuilder -> Z -> Sensor;
  (* JointFilter(transition, sensor) *)
  new_JointFilter : Transition -> Sensor -> JointFilter;
  (* Tracker(joint_filters, kinematics) *)
  new_Tracker : list JointFilter -> KinematicsFromURDF -> Tracker
}.

Section RotaryTrackerBuilderModel.
Context `{TrackerInterface}.

Record RotaryTrackerBuilder : Type := {
  kinematics_ : KinematicsFromURDF;
  transition_builder_ : FactorizedTransitionBuilder;
  sensor_builder_ : RotarySensorBuilder
}.

Definition create_joint_filters (this : RotaryTrackerBuilder) : list JointFilter :=
  let joint_filters := [] in
  for_loop 0 (num_joints this.(kinematics_))
    (fun i joint_filters =>
       let transition := transition_build this.(transition_builder_) i in
       let sensor := sensor_build this.(sensor_builder_) i in
       let filter := new_JointFilter transition sensor in
       joint_filters ++ [filter])
    joint_filters.

Definition build (this : RotaryTrackerBuilder) : Tracker :=
  let joint_filters := create_joint_filters this in
  let tracker := new_Tracker joint_filters this.(kinematics_) in
  tracker.

End RotaryTrackerBuilderModel.

(* ================================================================= *)
(** ** ArmRobotAnimator (arm_robot_emulator_node.cpp) *)

(** [animate] takes [current] by const reference and [next] by reference;
    a caller may pass the same vector for both.  Vectors therefore live in
    a store and the two arguments are references into it.  An index
    outside a vector is an error of the call ([None]): Eigen's
    [operator[]] does not check it in release builds. *)

Section ArmRobotAnimatorModel.
Local Open Scope scalar_scope.

Definition VectorXd : Type := list Scalar.
Definition ref : Type := nat.
Definition store : Type := ref -> VectorXd.

Fixpoint list_update {A : Type} (l : list A) (n : nat) (a : A) : list A :=
  match l, n with
  | [], _ => []
  | _ :: l', O => a :: l'
  | x :: l', S n' => x :: list_update l' n' a
  end.

Definition vec_read (v : VectorXd) (i : Z) : option Scalar :=
  if (0 <=? i)%Z then nth_error v (Z.to_nat i) else None.

Definition vec_write (v : VectorXd) (i : Z) (x : Scalar) : option VectorXd :=
  if ((0 <=? i) && (i <? Z.of_nat (length v)))%Z
  then Some (list_update v (Z.to_nat i) x)
  else None.

Definition store_set (h : store) (r : ref) (v : VectorXd) : store :=
  fun r' => if Nat.eqb r' r then v else h r'.

Record ArmRobotAnimator : Type := { t_ : Scalar }.

(** [ArmRobotAnimator() : t_(0.) {}] *)
Definition new_ArmRobotAnimator : ArmRobotAnimator := {| t_ := Fin 0 |}.

(** [next[i] = current[i] + 0.1 * dt / dilation * std::sin(t_ / dilation);]
    on a store that may already have failed. *)
Definition assign_next (t dt dilation : Scalar) (current next : ref)
  (i : Z) (st : option store) : option store :=
  match st with
  | None => None
  | Some h =>
      match vec_read (h current) i with
      | None => None
      | Some current_i =>
          match vec_write (h next) i
                  (current_i + Fin 0.1 * dt / dilation * std.sin (t / dilation)) with
          | None => None
          | Some v => Some (store_set h next v)
          end
      end
  end.

Definition animate (this : ArmRobotAnimator) (h : store)
  (current : ref) (dt dilation : Scalar) (next : ref)
  : option (ArmRobotAnimator * store) :=
  let this := {| t_ := this.(t_) + dt |} in
  (* left arm *)
  let st :=
    for_loop 6 (6 + 7) (assign_next this.(t_) dt dilation current next) (Some h) in
  (* right arm *)
  let st :=
    for_loop (6 + 7 + 8) (6 + 2 * 7 + 8)
      (assign_next this.(t_) dt dilation current next) st in
  match st with
  | Some h' => Some (this, h')
  | None => None
  end.

(** The indices [animate] assigns. *)
Definition arm_index (i : Z) : Prop := (6 <= i <= 12 \/ 21 <= i <= 27)%Z.

End ArmRobotAnimatorModel.

(* ================================================================= *)
(** ** Doubles with rounding and overflow *)

(** The exact arithmetic above gives the value of each formula.  Whether a
    result is defined, and which sign it has, also depends on what rounding
    does to the intermediate results: a finite operation may overflow to
    an infinity or round to zero, and a later operation then meets
    infinity / infinity, infinity * 0 or 0 / 0.  The arithmetic of this
    section makes that visible.  A finite operation returns the real
    result passed through [round], which stands for rounding to a double
    and may return an infinity; the special values are handled as before.

    [round] and the functions of <cmath> are not fixed.  Only this much is
    asked of them, all of it true of IEEE 754 binary64 and of the usual
    math libraries: rounding keeps the sign, keeps a double as it is, is
    monotone, and does not overflow on [-2, 2]; [exp] is not negative and
    is finite on arguments that are not positive; [sqrt] is not negative;
    [erf] and [sin] lie in [-1, 1]; [log] is finite on a positive double
    and not positive on (0, 1]; [M_PI] is positive.

    Two arithmetics are given below: the exact one, in which the functions
    of this section are the ones of the previous sections, and one that is
    exact up to overflow at 2^1024. *)

(** [0 <= x] as doubles compare: false for NaN. *)
Definition Snonneg (x : Scalar) : Prop :=
  match x with
  | Fin a => (0 <= a)%R
  | Inf negative => negative = false
  | NaN => False
  end.

(** [t <= x] as doubles compare, for a finite [t]. *)
Definition Sat_least (t : R) (x : Scalar) : Prop :=
  match x with
  | Fin a => (t <= a)%R
  | Inf negative => negative = false
  | NaN => False
  end.

Definition Sfinite (x : Scalar) : Prop := exists a : R, x = Fin a.

(** [0 < x] for a finite [x]. *)
Definition Sfinite_positive (x : Scalar) : Prop :=
  match x with
  | Fin a => (0 < a)%R
  | _ => False
  end.

(** A finite number or +infinity: neither NaN nor -infinity. *)
Definition Sbounded_below (x : Scalar) : Prop :=
  match x with
  | Fin _ => True
  | Inf negative => negative = false
  | NaN => False
  end.

Class DoubleArithmetic : Type := {
  round : R -> Scalar;
  round_nonneg : forall x : R, (0 <= x)%R -> Snonneg (round x);
  round_nonpos : forall x : R, (x <= 0)%R -> Snonneg (Sneg (round x));
  round_small : forall x : R, (Rabs x <= 2)%R -> Sfinite (round x);
  round_idempotent : forall x v : R, round x = Fin v -> round v = Fin v;
  round_monotone : forall t x v : R,
    round t = Fin t -> (t <= x)%R -> round x = Fin v -> (t <= v)%R;
  exp_d : R -> Scalar;
  exp_d_nonneg : forall a : R, Snonneg (exp_d a);
  exp_d_finite : forall a : R, (a <= 0)%R -> Sfinite (exp_d a);
  sqrt_d : R -> Scalar;
  sqrt_d_nonneg : forall a : R, (0 <= a)%R -> Snonneg (sqrt_d a);
  erf_d : R -> R;
  erf_d_range : forall a : R, (-1 <= erf_d a <= 1)%R;
  sin_d : R -> R;
  sin_d_range : forall a : R, (-1 <= sin_d a <= 1)%R;
  log_d : R -> Scalar;
  log_d_finite : forall a : R, (0 < a)%R -> Sfinite (log_d a);
  log_d_nonpos : forall a : R, (0 < a <= 1)%R -> Snonneg (Sneg (log_d a));
  pi_d : R;
  pi_d_pos : (0 < pi_d)%R
}.

Declare Scope double_scope.
Delimit Scope double_scope with D.

Module Rounded.

Section Operations.
Context {arithmetic : DoubleArithmetic}.

(** Negation is exact. *)
Definition neg (x : Scalar) : Scalar := Sneg x.

Definition add (x y : Scalar) : Scalar :=
  match x, y with
  | NaN, _ | _, NaN => NaN
  | Fin a, Fin b => round (a + b)
  | Fin _, Inf s | Inf s, Fin _ => Inf s
  | Inf s, Inf t => if Bool.eqb s t then Inf s else NaN
  end.

Definition sub (x y : Scalar) : Scalar := add x (neg y).

Definition mul (x y : Scalar) : Scalar :=
  match x, y with
  | NaN, _ | _, NaN => NaN
  | Fin a, Fin b => round (a * b)
  | Fin a, Inf s | Inf s, Fin a =>
      if Req_dec_T a 0 then NaN else Inf (xorb (Rsignbit a) s)
  | Inf s, Inf t => Inf (xorb s t)
  end.

Definition div (x y : Scalar) : Scalar :=
  match x, y with
  | NaN, _ | _, NaN => NaN
  | Fin a, Fin b =>
      if Req_dec_T b 0
      then (if Req_dec_T a 0 then NaN else Inf (Rsignbit a))
      else round (a / b)
  | Fin _, Inf _ => Fin 0
  | Inf s, Fin b => Inf (xorb s (Rsignbit b))
  | Inf _, Inf _ => NaN
  end.

Definition exp (x : Scalar) : Scalar :=
  match x with
  | Fin a => exp_d a
  | PInf => PInf
  | NInf => Fin 0
  | NaN => NaN
  end.

Definition log (x : Scalar) : Scalar :=
  match x with
  | Fin a =>
      if Rlt_dec 0 a then log_d a
      else if Req_dec_T a 0 then NInf else NaN
  | PInf => PInf
  | NInf => NaN
  | NaN => NaN
  end.

Definition sqrt (x : Scalar) : Scalar :=
  match x with
  | Fin a => if Rle_dec 0 a then sqrt_d a else NaN
  | PInf => PInf
  | NInf => NaN
  | NaN => NaN
  end.

Definition erf (x : Scalar) : Scalar :=
  match x with
  | Fin a => Fin (erf_d a)
  | PInf => Fin 1
  | NInf => Fin (-1)
  | NaN => NaN
  end.

Definition sin (x : Scalar) : Scalar :=
  match x with
  | Fin a => Fin (sin_d a)
  | Inf _ => NaN
  | NaN => NaN
  end.

Fixpoint pow (x : Scalar) (n : nat) : Scalar :=
  match n with
  | O => Fin 1
  | S O => x
  | S n' => mul x (pow x n')
  end.

Definition M_PI : Scalar := Fin pi_d.

End Operations.

Arguments neg x%_double_scope.
Arguments add {arithmetic} (x y)%_double_scope.
Arguments sub {arithmetic} (x y)%_double_scope.
Arguments mul {arithmetic} (x y)%_double_scope.
Arguments div {arithmetic} (x y)%_double_scope.
Arguments exp {arithmetic} x%_double_scope.
Arguments log {arithmetic} x%_double_scope.
Arguments sqrt {arithmetic} x%_double_scope.
Arguments erf {arithmetic} x%_double_scope.
Arguments sin {arithmetic} x%_double_scope.
Arguments pow {arithmetic} x%_double_scope n%_nat_scope.

Notation "x + y" := (add x y) : double_scope.
Notation "x - y" := (sub x y) : double_scope.
Notation "x * y" := (mul x y) : double_scope.
Notation "x / y" := (div x y) : double_scope.
Notation "- x" := (neg x) : double_scope.

(** *** KinectObserver, with the operations above *)

Section KinectObserverRounded.
Context {arithmetic : DoubleArithmetic}.
Local Open Scope double_scope.

Definition new_KinectObserver
  (tail_weight model_sigma sigma_factor half_life_depth max_depth : Scalar)
  (indeterminate_prediction : Scalar) (indeterminate_occlusion : bool)
  : KinectObserver :=
  {| exponential_rate_ := (- log (Fin 0.5) / half_life_depth)%D;
     tail_weight_ := tail_weight;
     model_sigma_ := model_sigma;
     sigma_factor_ := sigma_factor;
     max_depth_ := max_depth;
     prediction_ := indeterminate_prediction;
     occlusion_ := indeterminate_occlusion |}.

Definition Probability (this : KinectObserver) (observation : Scalar) : Scalar :=
 (let sigma :=
    this.(model_sigma_) + this.(sigma_factor_) * observation * observation in
  if negb this.(occlusion_) then
    if std.isinf this.(prediction_) then
      this.(tail_weight_) / this.(max_depth_)
    else
      this.(tail_weight_) / this.(max_depth_)
      + (Fin 1 - this.(tail_weight_))
        * exp (- (pow (this.(prediction_) - observation) 2
                  / (Fin 2 * sigma * sigma)))
        / (sqrt (Fin 2 * M_PI) * sigma)
  else
    if std.isinf this.(prediction_) then
      this.(tail_weight_) / this.(max_depth_)
      + (Fin 1 - this.(tail_weight_)) * this.(exponential_rate_)
        * exp (Fin 0.5 * this.(exponential_rate_)
               * (- Fin 2 * observation
                  + this.(exponential_rate_) * sigma * sigma))
    else
      this.(tail_weight_) / this.(max_depth_)
      + (Fin 1 - this.(tail_weight_)) * this.(exponential_rate_)
        * exp (Fin 0.5 * this.(exponential_rate_)
               * (Fin 2 * this.(prediction_) - Fin 2 * observation
                  + this.(exponential_rate_) * sigma * sigma))
        * (Fin 1 + erf ((this.(prediction_) - observation
                         + this.(exponential_rate_) * sigma * sigma)
                        / (sqrt (Fin 2) * sigma)))
        / (Fin 2 * (exp (this.(prediction_) * this.(exponential_rate_)) - Fin 1))
 )%D.

Definition LogProbability (this : KinectObserver) (observation : Scalar) : Scalar :=
  log (Probability this observation).

(** The intermediate results of [Probability] that the properties name. *)

Definition sigma (this : KinectObserver) (observation : Scalar) : Scalar :=
  (this.(model_sigma_) + this.(sigma_factor_) * observation * observation)%D.

Definition tail_term (this : KinectObserver) : Scalar :=
  (this.(tail_weight_) / this.(max_depth_))%D.

(** The divisor of the Gaussian exponent, [2 * sigma * sigma]. *)
Definition exponent_divisor (this : KinectObserver) (observation : Scalar) : Scalar :=
  (Fin 2 * sigma this observation * sigma this observation)%D.

(** The divisor of the Gaussian term, [sqrt (2 * M_PI) * sigma]. *)
Definition gaussian_divisor (this : KinectObserver) (observation : Scalar) : Scalar :=
  (sqrt (Fin 2 * M_PI) * sigma this observation)%D.

(** The argument of [std::exp] in the two occluded branches. *)
Definition occlusion_exponent (this : KinectObserver) (observation : Scalar) : Scalar :=
 (if std.isinf this.(prediction_) then
    Fin 0.5 * this.(exponential_rate_)
    * (- Fin 2 * observation
       + this.(exponential_rate_) * sigma this observation * sigma this observation)
  else
    Fin 0.5 * this.(exponential_rate_)
    * (Fin 2 * this.(prediction_) - Fin 2 * observation
       + this.(exponential_rate_) * sigma this observation * sigma this observation)
 )%D.

(** The exponential factor of the two occluded branches,
    [(1 - tail_weight_) * exponential_rate_ * exp (...)]. *)
Definition occlusion_factor (this : KinectObserver) (observation : Scalar) : Scalar :=
  ((Fin 1 - this.(tail_weight_)) * this.(exponential_rate_)
   * exp (occlusion_exponent this observation))%D.

(** The argument of [std::erf]. *)
Definition erf_argument (this : KinectObserver) (observation : Scalar) : Scalar :=
  ((this.(prediction_) - observation
    + this.(exponential_rate_) * sigma this observation * sigma this observation)
   / (sqrt (Fin 2) * sigma this observation))%D.

(** The last divisor, [2 * (exp (prediction_ * exponential_rate_) - 1)]. *)
Definition truncation_divisor (this : KinectObserver) : Scalar :=
  (Fin 2 * (exp (this.(prediction_) * this.(exponential_rate_)) - Fin 1))%D.

(** A call of [Probability] is well conditioned when, in the branch it
    takes, the divisors are computed as positive finite numbers, the
    exponential factor is not NaN and, where it is multiplied by
    [1 + erf (...)], finite, and the argument of [erf] is not NaN.  The
    branch for an infinite prediction without occlusion needs nothing.  A
    call with a NaN prediction is never well conditioned. *)
Definition well_conditioned (this : KinectObserver) (observation : Scalar) : Prop :=
  match this.(prediction_), this.(occlusion_) with
  | NaN, _ => False
  | Inf _, false => True
  | Fin _, false =>
      Sfinite_positive (exponent_divisor this observation) /\
      Sfinite_positive (gaussian_divisor this observation)
  | Inf _, true => occlusion_factor this observation <> NaN
  | Fin _, true =>
      Sfinite (occlusion_factor this observation) /\
      erf_argument this observation <> NaN /\
      Sfinite_positive (truncation_divisor this)
  end.

End KinectObserverRounded.

(** *** ArmRobotAnimator, with the operations above *)

Section ArmRobotAnimatorRounded.
Context {arithmetic : DoubleArithmetic}.
Local Open Scope double_scope.

Definition assign_next (t dt dilation : Scalar) (current next : ref)
  (i : Z) (st : option store) : option store :=
  match st with
  | None => None
  | Some h =>
      match vec_read (h current) i with
      | None => None
      | Some current_i =>
          match vec_write (h next) i
                  (current_i + Fin 0.1 * dt / dilation * sin (t / dilation))%D with
          | None => None
          | Some v => Some (store_set h next v)
          end
      end
  end.

Definition animate (this : ArmRobotAnimator) (h : store)
  (current : ref) (dt dilation : Scalar) (next : ref)
  : option (ArmRobotAnimator * store) :=
  let this := {| t_ := (this.(t_) + dt)%D |} in
  (* left arm *)
  let st :=
    for_loop 6 (6 + 7) (assign_next this.(t_) dt dilation current next) (Some h) in
  (* right arm *)
  let st :=
    for_loop (6 + 7 + 8) (6 + 2 * 7 + 8)
      (assign_next this.(t_) dt dilation current next) st in
  match st with
  | Some h' => Some (this, h')
  | None => None
  end.

End ArmRobotAnimatorRounded.

End Rounded.

(** *** Two arithmetics *)

(** Exact arithmetic: nothing is rounded, nothing overflows. *)
#[refine] Instance exact_arithmetic : DoubleArithmetic := {|
  round := Fin;
  exp_d := fun a => Fin (Rtrigo_def.exp a);
  sqrt_d := fun a => Fin (R_sqrt.sqrt a);
  erf_d := ErrorFunction.erf;
  sin_d := Rtrigo_def.sin;
  log_d := fun a => Fin (ln a);
  pi_d := PI
|}.
Proof.
  - intros x Hx. exact Hx.
  - intros x Hx. cbn. lra.
  - intros x _. exists x. reflexivity.
  - intros x v Hx. reflexivity.
  - intros t x v _ Htx Hx. injection Hx as <-. exact Htx.
  - intros a. cbn. left. apply exp_pos.
  - intros a _. eexists. reflexivity.
  - intros a Ha. cbn. apply sqrt_pos.
  - intros a. pose proof (ErrorFunction.erf_range a). lra.
  - intros a. pose proof (SIN_bound a). lra.
  - intros a _. eexists. reflexivity.
  - intros a [Ha Ha1]. cbn.
    destruct (Req_dec a 1) as [-> | Hne].
    + rewrite ln_1. lra.
    + assert (ln a < ln 1)%R by (apply ln_increasing; lra).
      rewrite ln_1 in *. lra.
  - exact PI_RGT_0.
Defined.

(** Arithmetic that is exact up to overflow: a result of magnitude 2^1024
    or more becomes an infinity, as it does in binary64, and a result
    below that is kept as it is. *)
Definition overflow_threshold : R := (2 ^ 1024)%R.

Definition in_double_range (x : R) : Prop := (Rabs x < overflow_threshold)%R.

Definition round_to_range (x : R) : Scalar :=
  if Rlt_dec (Rabs x) overflow_threshold then Fin x else Inf (Rsignbit x).

Lemma overflow_threshold_large : (1048576 <= overflow_threshold)%R.
Proof.
  unfold overflow_threshold.
  replace 1048576%R with (2 ^ 20)%R by (simpl; lra).
  apply Rle_pow; [lra | lia].
Qed.

Lemma round_in_range x : in_double_range x -> round_to_range x = Fin x.
Proof.
  unfold in_double_range, round_to_range. intros H.
  destruct (Rlt_dec (Rabs x) overflow_threshold); [reflexivity | contradiction].
Qed.

Lemma small_in_double_range x : (Rabs x < 1048576)%R -> in_double_range x.
Proof. unfold in_double_range. pose proof overflow_threshold_large. lra. Qed.

Lemma round_overflow x :
  (overflow_threshold <= x)%R -> round_to_range x = PInf.
Proof.
  intros Hx. unfold round_to_range. pose proof overflow_threshold_large.
  destruct (Rlt_dec (Rabs x) overflow_threshold) as [H1 | H1].
  - rewrite Rabs_right in H1 by lra. lra.
  - unfold Rsignbit. destruct (Rlt_dec x 0); [lra | reflexivity].
Qed.

#[refine] Instance binary64_range : DoubleArithmetic := {|
  round := round_to_range;
  exp_d := fun a => round_to_range (Rtrigo_def.exp a);
  sqrt_d := fun a => Fin (R_sqrt.sqrt a);
  erf_d := ErrorFunction.erf;
  sin_d := Rtrigo_def.sin;
  log_d := fun a => Fin (ln a);
  pi_d := PI
|}.
Proof.
  - intros x Hx. unfold round_to_range.
    destruct (Rlt_dec (Rabs x) overflow_threshold); cbn; [exact Hx | ].
    unfold Rsignbit. destruct (Rlt_dec x 0); [lra | reflexivity].
  - intros x Hx. unfold round_to_range. pose proof overflow_threshold_large.
    destruct (Rlt_dec (Rabs x) overflow_threshold) as [H1 | H1]; cbn; [lra | ].
    unfold Rsignbit. destruct (Rlt_dec x 0) as [H2 | H2]; [reflexivity | ].
    exfalso. apply H1. replace x with 0%R by lra. rewrite Rabs_R0. lra.
  - intros x Hx. exists x. apply round_in_range, small_in_double_range. lra.
  - intros x v. unfold round_to_range.
    destruct (Rlt_dec (Rabs x) overflow_threshold) as [H1 | H1]; [ | discriminate].
    intros E. injection E as <-.
    destruct (Rlt_dec (Rabs x) overflow_threshold); [reflexivity | contradiction].
  - intros t x v _ Htx. unfold round_to_range.
    destruct (Rlt_dec (Rabs x) overflow_threshold); [ | discriminate].
    intros E. injection E as <-. exact Htx.
  - intros a. unfold round_to_range. pose proof (exp_pos a).
    destruct (Rlt_dec (Rabs (Rtrigo_def.exp a)) overflow_threshold); cbn; [lra | ].
    unfold Rsignbit. destruct (Rlt_dec (Rtrigo_def.exp a) 0); [lra | reflexivity].
  - intros a Ha. eexists. apply round_in_range, small_in_double_range.
    pose proof (exp_pos a).
    assert (Rtrigo_def.exp a <= 1)%R.
    { rewrite <- exp_0. destruct (Req_dec a 0) as [-> | Hne]; [lra | ].
      left. apply exp_increasing. lra. }
    rewrite Rabs_right; lra.
  - intros a Ha. cbn. apply sqrt_pos.
  - intros a. pose proof (ErrorFunction.erf_range a). lra.
  - intros a. pose proof (SIN_bound a). lra.
  - intros a _. eexists. reflexivity.
  - intros a [Ha Ha1]. cbn.
    destruct (Req_dec a 1) as [-> | Hne].
    + rewrite ln_1. lra.
    + assert (ln a < ln 1)%R by (apply ln_increasing; lra).
      rewrite ln_1 in *. lra.
  - exact PI_RGT_0.
Defined.

(* ================================================================= *)
(** ** Arithmetic facts about scalars *)

Section ScalarFacts.
Local Open Scope scalar_scope.

Lemma Rsignbit_opp a : a <> 0%R -> Rsignbit (- a) = negb (Rsignbit a).
Proof.
  intros Ha. unfold Rsignbit.
  destruct (Rlt_dec (- a) 0), (Rlt_dec a 0); simpl; try reflexivity; exfalso; lra.
Qed.

Lemma Rsignbit_mult a b :
  a <> 0%R -> b <> 0%R -> Rsignbit (a * b) = xorb (Rsignbit a) (Rsignbit b).
Proof.
  intros Ha Hb. unfold Rsignbit.
  destruct (Rlt_dec (a * b) 0), (Rlt_dec a 0), (Rlt_dec b 0); simpl;
    try reflexivity; exfalso; nra.
Qed.

Lemma Sdiv_Fin a b : b <> 0%R -> Fin a / Fin b = Fin (a / b).
Proof. intros Hb. simpl. destruct (Req_dec_T b 0); [contradiction | reflexivity]. Qed.

Lemma Sdiv_by_zero a b :
  b = 0%R -> (0 < a)%R -> Fin a / Fin b = PInf.
Proof.
  intros Hb Ha. simpl. destruct (Req_dec_T b 0); [ | contradiction].
  destruct (Req_dec_T a 0); [exfalso; lra | ].
  unfold Rsignbit. destruct (Rlt_dec a 0); [exfalso; lra | reflexivity].
Qed.

Lemma Sdiv_zero_by_zero a b : a = 0%R -> b = 0%R -> Fin a / Fin b = NaN.
Proof.
  intros Ha Hb. simpl. destruct (Req_dec_T b 0); [ | contradiction].
  destruct (Req_dec_T a 0); [reflexivity | contradiction].
Qed.

Lemma log_zero a : a = 0%R -> std.log (Fin a) = NInf.
Proof.
  intros Ha. simpl. destruct (Rlt_dec 0 a); [exfalso; lra | ].
  destruct (Req_dec_T a 0); [reflexivity | contradiction].
Qed.

Lemma log_negative a : (a < 0)%R -> std.log (Fin a) = NaN.
Proof.
  intros Ha. simpl. destruct (Rlt_dec 0 a); [exfalso; lra | ].
  destruct (Req_dec_T a 0); [exfalso; lra | reflexivity].
Qed.

Lemma sqrt_Fin a : (0 <= a)%R -> std.sqrt (Fin a) = Fin (sqrt a).
Proof. intros Ha. simpl. destruct (Rle_dec 0 a); [reflexivity | contradiction]. Qed.

Lemma log_Fin a : (0 < a)%R -> std.log (Fin a) = Fin (ln a).
Proof. intros Ha. simpl. destruct (Rlt_dec 0 a); [reflexivity | contradiction]. Qed.

Lemma pow_2 x : std.pow x 2 = x * x.
Proof. reflexivity. Qed.


Lemma Smul_comm x y : x * y = y * x.
Proof.
  destruct x as [a | s | ], y as [b | t | ]; simpl; try reflexivity.
  - f_equal. ring.
  - destruct s, t; reflexivity.
Qed.


Lemma Sdiv_neg_l x y : (- x) / y = - (x / y).
Proof.
  destruct x as [a | s | ], y as [b | t | ]; simpl; try reflexivity.
  - destruct (Req_dec_T b 0).
    + destruct (Req_dec_T (- a) 0), (Req_dec_T a 0); try reflexivity; try (exfalso; lra).
      simpl. rewrite Rsignbit_opp by assumption. reflexivity.
    + simpl. f_equal. unfold Rdiv. ring.
  - f_equal. ring.
  - destruct s, (Rsignbit b); reflexivity.
Qed.

Lemma Smul_assoc x y z : x * y * z = x * (y * z).
Proof.
  destruct x as [a | s | ], y as [b | t | ], z as [c | u | ]; simpl;
    repeat match goal with
      | |- context [Req_dec_T ?p ?q] => destruct (Req_dec_T p q); simpl
      end;
    subst; try reflexivity;
    try (f_equal; ring);
    try (exfalso; nra);
    try (match goal with
         | H : (?p * ?q)%R = 0%R |- _ =>
             apply Rmult_integral in H; destruct H; contradiction
         end);
    try (rewrite Rsignbit_mult by assumption);
    try (match goal with
         | H : (?p * ?q)%R <> 0%R |- _ => exfalso; apply H; ring
         end);
    repeat match goal with
      | |- context [Rsignbit ?p] => destruct (Rsignbit p)
      | b : bool |- _ => destruct b
      end; reflexivity.
Qed.

End ScalarFacts.

(* ================================================================= *)
(** ** Facts about counted loops *)

Lemma for_loop_fold {St : Type} (n : nat) :
  forall (i hi : Z) (body : Z -> St -> St) (s : St),
  Z.to_nat (hi - i) = n ->
  for_loop i hi body s = fold_left (fun s k => body k s) (Zrange i n) s.
Proof.
  induction n as [ | n IH]; intros i hi body s Hn; simp for_loop.
  - destruct (Z_lt_dec i hi); [lia | reflexivity].
  - destruct (Z_lt_dec i hi); [ | lia]. cbn.
    apply IH. lia.
Qed.

Lemma Zrange_length lo n : length (Zrange lo n) = n.
Proof. revert lo. induction n as [ | n IH]; intros lo; cbn; [ | rewrite IH]; reflexivity. Qed.

Lemma Zrange_nth lo n k :
  (k < n)%nat -> nth_error (Zrange lo n) k = Some (lo + Z.of_nat k)%Z.
Proof.
  revert lo k. induction n as [ | n IH]; intros lo k Hk; [lia | ].
  destruct k as [ | k]; cbn [Zrange nth_error].
  - f_equal. lia.
  - rewrite IH by lia. f_equal. lia.
Qed.

Lemma fold_left_snoc {A B : Type} (f : B -> A) (l : list B) (acc : list A) :
  fold_left (fun s k => s ++ [f k]) l acc = acc ++ map f l.
Proof.
  revert acc. induction l as [ | b l IH]; intros acc; cbn.
  - symmetry. apply app_nil_r.
  - rewrite IH, <- app_assoc. reflexivity.
Qed.

(* ================================================================= *)
(** ** Properties of KinectObserver *)

Section KinectObserverFacts.
Local Open Scope scalar_scope.

(** Equal real expressions up to ring identities below the transcendental
    functions: descend through equal heads, close the leaves by [ring]. *)
Ltac real_congr := repeat first [ reflexivity | ring | progress f_equal ].

Lemma sqrt_2PI_pos : (0 < sqrt (2 * PI))%R.
Proof. apply sqrt_lt_R0. pose proof PI_RGT_0. lra. Qed.

(** The four branches of [Probability] on finite parameters, as real
    numbers.  Each asks for the divisors of its branch to be non-zero. *)

Lemma Probability_visible_infinite_real this rate tw ms sf md s obs :
  finite_parameters this rate tw ms sf md -> md <> 0%R ->
  Probability (Condition this (Inf s) false) obs = Fin (tw / md).
Proof.
  intros (_ & Htw & _ & _ & Hmd) Hnz.
  unfold Probability. cbn [Condition occlusion_ prediction_ tail_weight_ max_depth_
                             negb std.isinf].
  rewrite Htw, Hmd. apply Sdiv_Fin, Hnz.
Qed.

Lemma Probability_visible_finite_real this rate tw ms sf md pd obs :
  finite_parameters this rate tw ms sf md -> md <> 0%R ->
  sigma_of ms sf obs <> 0%R ->
  Probability (Condition this (Fin pd) false) (Fin obs) =
  Fin (tw / md
       + (1 - tw) * Rtrigo_def.exp (- ((pd - obs) ^ 2 / (2 * sigma_of ms sf obs ^ 2)))
         / (sqrt (2 * PI) * sigma_of ms sf obs)).
Proof.
  intros (_ & Htw & Hms & Hsf & Hmd) Hnz Hs.
  unfold Probability.
  cbn [Condition occlusion_ prediction_ tail_weight_ max_depth_ model_sigma_
         sigma_factor_ negb std.isinf].
  rewrite Htw, Hms, Hsf, Hmd. unfold std.M_PI.
  cbn [Sadd Ssub Smul Sneg std.pow].
  pose proof sqrt_2PI_pos as Hpi. pose proof PI_RGT_0 as Hpi0.
  rewrite (Sdiv_Fin tw md) by exact Hnz.
  rewrite sqrt_Fin by lra.
  unfold sigma_of in *.
  rewrite Sdiv_Fin by nra.
  cbn [std.exp Smul Sneg].
  rewrite Sdiv_Fin by nra.
  cbn [Sadd]. real_congr.
Qed.

Lemma Probability_occluded_infinite_real this rate tw ms sf md s obs :
  finite_parameters this rate tw ms sf md -> md <> 0%R ->
  Probability (Condition this (Inf s) true) (Fin obs) =
  Fin (tw / md
       + (1 - tw) * rate
         * Rtrigo_def.exp (0.5 * rate * (rate * sigma_of ms sf obs ^ 2 - 2 * obs))).
Proof.
  intros (Hr & Htw & Hms & Hsf & Hmd) Hnz.
  unfold Probability.
  cbn [Condition occlusion_ prediction_ tail_weight_ max_depth_ model_sigma_
         sigma_factor_ exponential_rate_ negb std.isinf].
  rewrite Hr, Htw, Hms, Hsf, Hmd.
  cbn [Sadd Ssub Smul Sneg std.exp].
  rewrite Sdiv_Fin by exact Hnz.
  cbn [Sadd]. unfold sigma_of. real_congr.
Qed.

Lemma Probability_occluded_finite_real this rate tw ms sf md pd obs :
  finite_parameters this rate tw ms sf md -> md <> 0%R ->
  sigma_of ms sf obs <> 0%R ->
  (pd * rate <> 0)%R ->
  Probability (Condition this (Fin pd) true) (Fin obs) =
  Fin (tw / md
       + (1 - tw) * rate
         * Rtrigo_def.exp (0.5 * rate
                           * (2 * pd - 2 * obs + rate * sigma_of ms sf obs ^ 2))
         * (1 + ErrorFunction.erf ((pd - obs + rate * sigma_of ms sf obs ^ 2)
                                   / (sqrt 2 * sigma_of ms sf obs)))
         / (2 * (Rtrigo_def.exp (pd * rate) - 1))).
Proof.
  intros (Hr & Htw & Hms & Hsf & Hmd) Hnz Hs Hpr.
  unfold Probability.
  cbn [Condition occlusion_ prediction_ tail_weight_ max_depth_ model_sigma_
         sigma_factor_ exponential_rate_ negb std.isinf].
  rewrite Hr, Htw, Hms, Hsf, Hmd.
  cbn [Sadd Ssub Smul Sneg std.exp].
  assert (H2 : (0 < sqrt 2)%R) by (apply sqrt_lt_R0; lra).
  assert (He : (Rtrigo_def.exp (pd * rate) + - (1) <> 0)%R).
  { intros E. apply Hpr. rewrite <- (ln_exp (pd * rate)).
    replace (Rtrigo_def.exp (pd * rate)) with 1%R by lra. apply ln_1. }
  unfold sigma_of in *.
  rewrite (Sdiv_Fin tw md) by exact Hnz.
  rewrite sqrt_Fin by lra.
  cbn [Smul].
  rewrite Sdiv_Fin by nra.
  cbn [std.erf Sadd Smul].
  rewrite Sdiv_Fin by nra.
  cbn [Sadd]. real_congr.
Qed.

(** The constructor on finite arguments with a positive half-life depth
    yields finite parameters, with rate [- ln 0.5 / half_life_depth]. *)
Lemma new_KinectObserver_finite tw ms sf hl md u b :
  (hl <> 0)%R ->
  finite_parameters
    (new_KinectObserver (Fin tw) (Fin ms) (Fin sf) (Fin hl) (Fin md) u b)
    (- ln 0.5 / hl) tw ms sf md.
Proof.
  intros Hhl. unfold finite_parameters, new_KinectObserver.
  cbn [exponential_rate_ tail_weight_ model_sigma_ sigma_factor_ max_depth_].
  repeat split.
  rewrite log_Fin by lra. cbn [Sneg]. apply Sdiv_Fin, Hhl.
Qed.

Lemma default_observer_finite u b :
  finite_parameters (default_observer u b)
    (- ln 0.5 / 1.0) 0.01 0.003 0.00142478 6.0.
Proof. apply new_KinectObserver_finite. lra. Qed.

(** C1.  Not occluded, finite prediction: for every finite observation the
    density is the tail term plus the weighted Gaussian density with mean
    [predicted_depth] and standard deviation
    [sigma = model_sigma + sigma_factor * obs^2].  First in the arithmetic
    of scalars, for all parameter values; then as a real number, when the
    parameters are finite and the divisors [max_depth] and [sigma] are not
    zero. *)
Theorem C1_Probability_visible_finite_prediction
  (this : KinectObserver) (predicted_depth obs : R) :
  (let sigma :=
     this.(model_sigma_) + this.(sigma_factor_) * std.pow (Fin obs) 2 in
   Probability (Condition this (Fin predicted_depth) false) (Fin obs) =
   this.(tail_weight_) / this.(max_depth_)
   + (Fin 1 - this.(tail_weight_))
     * std.exp (- std.pow (Fin predicted_depth - Fin obs) 2
                / (Fin 2 * std.pow sigma 2))
     / (std.sqrt (Fin 2 * std.M_PI) * sigma))
  /\
  (forall rate tw ms sf md : R,
     finite_parameters this rate tw ms sf md ->
     md <> 0%R ->
     (ms + sf * obs ^ 2 <> 0)%R ->
     let sigma := (ms + sf * obs ^ 2)%R in
     Probability (Condition this (Fin predicted_depth) false) (Fin obs) =
     Fin (tw / md
          + (1 - tw)
            * Rtrigo_def.exp (- (predicted_depth - obs) ^ 2 / (2 * sigma ^ 2))
            / (sqrt (2 * PI) * sigma))).
Proof.
  split.
  - cbv zeta. unfold Probability.
    cbn [Condition occlusion_ prediction_ tail_weight_ max_depth_ model_sigma_
           sigma_factor_ negb std.isinf].
    rewrite !pow_2, Sdiv_neg_l.
    rewrite (Smul_assoc (sigma_factor_ this)).
    rewrite (Smul_assoc (Fin 2)).
    reflexivity.
  - intros rate tw ms sf md Hfin Hmd Hs sigma.
    rewrite (Probability_visible_finite_real this rate tw ms sf md) by assumption.
    unfold sigma_of. subst sigma. do 5 f_equal.
    unfold Rdiv. ring.
Qed.

Lemma C1_witness :
  Probability (Condition (default_observer NaN true) (Fin 2) false) (Fin 1) =
  Fin (0.01 / 6.0
       + (1 - 0.01)
         * Rtrigo_def.exp (- (2 - 1) ^ 2 / (2 * (0.003 + 0.00142478 * 1 ^ 2) ^ 2))
         / (sqrt (2 * PI) * (0.003 + 0.00142478 * 1 ^ 2))).
Proof.
  apply (proj2 (C1_Probability_visible_finite_prediction
                  (default_observer NaN true) 2 1)
           (- ln 0.5 / 1.0)%R 0.01%R 0.003%R 0.00142478%R 6.0%R).
  - apply default_observer_finite.
  - lra.
  - lra.
Defined.

(** C2.  Not occluded, infinite prediction: the density is the tail term
    [tail_weight / max_depth] alone, for every observation, so it does not
    depend on the observation; on finite parameters with a non-zero
    [max_depth] it is that real number. *)
Theorem C2_Probability_visible_infinite_prediction
  (this : KinectObserver) (negative : bool) :
  (forall obs : R,
     Probability (Condition this (Inf negative) false) (Fin obs) =
     this.(tail_weight_) / this.(max_depth_))
  /\
  (forall obs obs' : R,
     Probability (Condition this (Inf negative) false) (Fin obs) =
     Probability (Condition this (Inf negative) false) (Fin obs'))
  /\
  (forall rate tw ms sf md obs : R,
     finite_parameters this rate tw ms sf md ->
     md <> 0%R ->
     Probability (Condition this (Inf negative) false) (Fin obs) = Fin (tw / md)).
Proof.
  repeat split.
  intros rate tw ms sf md obs Hfin Hmd.
  apply (Probability_visible_infinite_real this rate tw ms sf md); assumption.
Qed.

Lemma C2_witness :
  Probability (Condition (default_observer NaN true) PInf false) (Fin 1) =
  Fin (0.01 / 6.0).
Proof.
  apply (proj2 (proj2 (C2_Probability_visible_infinite_prediction
                         (default_observer NaN true) false))
           (- ln 0.5 / 1.0)%R 0.01%R 0.003%R 0.00142478%R 6.0%R 1%R).
  - apply default_observer_finite.
  - lra.
Defined.



(** C6.  The worked example: default parameters, not occluded, prediction
    2.0, observation 2.0.  The exponent is zero, so the Gaussian factor is
    [1 / (sqrt (2 pi) sigma)] with [sigma = 0.003 + 0.00142478 * 4]; in the
    exact arithmetic of the model the value is met exactly, hence within
    every tolerance. *)
Theorem C6_Probability_example (u : Scalar) (b : bool) :
  let sigma := (0.003 + 0.00142478 * 4)%R in
  Probability
    (Condition
       (new_KinectObserver (Fin 0.01) (Fin 0.003) (Fin 0.00142478) (Fin 1.0)
          (Fin 6.0) u b)
       (Fin 2.0) false)
    (Fin 2.0) =
  Fin (0.01 / 6 + 0.99 * (1 / (sqrt (2 * PI) * sigma))).
Proof.
  cbv zeta.
  rewrite (Probability_visible_finite_real _ (- ln 0.5 / 1.0) 0.01 0.003 0.00142478 6.0).
  - unfold sigma_of. f_equal.
    replace (- ((2.0 - 2.0) ^ 2 / (2 * (0.003 + 0.00142478 * 2.0 ^ 2) ^ 2)))%R
      with 0%R by (unfold Rdiv; ring).
    rewrite exp_0.
    replace (0.003 + 0.00142478 * 2.0 ^ 2)%R with (0.003 + 0.00142478 * 4)%R by lra.
    replace (1 - 0.01)%R with 0.99%R by lra.
    replace 6.0%R with 6%R by lra.
    unfold Rdiv. ring.
  - apply new_KinectObserver_finite. lra.
  - lra.
  - unfold sigma_of. lra.
Qed.

Lemma ln_half_neg : (ln 0.5 < - / 2)%R.
Proof.
  replace 0.5%R with (/ 2)%R by lra. rewrite ln_Rinv by lra.
  pose proof ln_lt_2. lra.
Qed.

Lemma exponential_rate_pos hl : (0 < hl)%R -> (0 < - ln 0.5 / hl)%R.
Proof.
  intros Hhl. apply Rdiv_lt_0_compat; [ | exact Hhl].
  pose proof ln_half_neg. lra.
Qed.

Lemma exp_gt_1 x : (0 < x)%R -> (1 < Rtrigo_def.exp x)%R.
Proof. intros Hx. pose proof (exp_ineq1 x). lra. Qed.

(** A negative density: default parameters, occlusion flag set, predicted
    depth -1, observation -1.  The divisor
    [2 * (exp (prediction * rate) - 1)] is then -1. *)
Lemma Probability_negative_example :
  exists v : R,
    Probability (Condition (default_observer NaN false) (Fin (-1)) true) (Fin (-1))
    = Fin v
    /\ (v < 0)%R.
Proof.
  pose proof ln_half_neg as Hln.
  eexists. split.
  - apply (Probability_occluded_finite_real _ _ _ _ _ _ (-1) (-1)
             (default_observer_finite NaN false)).
    + lra.
    + unfold sigma_of. lra.
    + lra.
  - set (r := (- ln 0.5 / 1.0)%R).
    assert (Hr : (/ 2 < r)%R) by (unfold r; lra).
    set (s := sigma_of 0.003 0.00142478 (-1)).
    assert (Hs : (0 < s)%R) by (unfold s, sigma_of; lra).
    replace (-1 * r)%R with (ln 0.5) by (unfold r; lra).
    rewrite exp_ln by lra.
    set (x := (0.5 * r * (2 * -1 - 2 * -1 + r * s ^ 2))%R).
    set (y := ((-1 - -1 + r * s ^ 2) / (sqrt 2 * s))%R).
    assert (H2 : (0 < sqrt 2)%R) by (apply sqrt_lt_R0; lra).
    assert (Hx : (1 <= Rtrigo_def.exp x)%R).
    { pose proof (exp_ineq1_le x). assert (0 <= x)%R by (unfold x; nra). lra. }
    assert (Hy : (0 <= ErrorFunction.erf y)%R).
    { apply ErrorFunction.erf_nonneg. unfold y. apply Rmult_le_pos.
      - nra.
      - left. apply Rinv_0_lt_compat. nra. }
    assert (Hprod : (0.99 * / 2 <= (1 - 0.01) * r * Rtrigo_def.exp x
                                  * (1 + ErrorFunction.erf y))%R).
    { replace (0.99 * / 2)%R with ((1 - 0.01) * / 2 * 1 * 1)%R by lra.
      repeat apply Rmult_le_compat; lra. }
    replace (2 * (0.5 - 1))%R with (-1)%R by lra.
    lra.
Qed.

(** A density that is not a number: [model_sigma = 0] and observation 0
    give [sigma = 0], and the Gaussian term is 0 / 0. *)
Lemma Probability_nan_example :
  Probability
    (Condition
       (new_KinectObserver (Fin 0.01) (Fin 0) (Fin 0.00142478) (Fin 1.0) (Fin 6.0)
          NaN false)
       (Fin 2) false)
    (Fin 0) = NaN.
Proof.
  unfold Probability.
  cbn [Condition new_KinectObserver occlusion_ prediction_ tail_weight_ max_depth_
         model_sigma_ sigma_factor_ negb std.isinf].
  unfold std.M_PI. cbn [Sadd Ssub Smul Sneg std.pow].
  pose proof PI_RGT_0 as Hpi.
  rewrite sqrt_Fin by lra.
  rewrite (Sdiv_by_zero ((2 + - 0) * (2 + - 0))) by lra.
  cbn [Sneg negb std.exp Smul].
  rewrite (Sdiv_zero_by_zero ((1 + - (0.01)) * 0)) by lra.
  rewrite Sdiv_Fin by lra. reflexivity.
Qed.

(** C4 (amended).  [LogProbability] never fails.  Its call returns
    [std::log] of the density and leaves the object as it was: the natural
    logarithm when the density is positive, minus infinity when it is
    zero, NaN when it is negative.  No NumericalError is raised. *)
Theorem C4_LogProbability_returns_log (this : KinectObserver) (obs : Scalar) :
  invoke this (Call_LogProbability obs) =
    (this, Returns (Value (std.log (Probability this obs))))
  /\ (forall p : R,
        Probability this obs = Fin p -> (0 < p)%R ->
        LogProbability this obs = Fin (ln p))
  /\ (forall p : R,
        Probability this obs = Fin p -> p = 0%R ->
        LogProbability this obs = NInf)
  /\ (forall p : R,
        Probability this obs = Fin p -> (p < 0)%R ->
        LogProbability this obs = NaN).
Proof.
  split; [reflexivity | ]. unfold LogProbability.
  repeat split; intros p Hp Hsign; rewrite Hp.
  - apply log_Fin, Hsign.
  - apply log_zero, Hsign.
  - apply log_negative, Hsign.
Qed.

Lemma C4_witness :
  LogProbability (Condition (default_observer NaN true) PInf false) (Fin 1) =
  Fin (ln (0.01 / 6.0)).
Proof.
  apply (proj1 (proj2 (C4_LogProbability_returns_log
                         (Condition (default_observer NaN true) PInf false) (Fin 1)))).
  - apply (Probability_visible_infinite_real _ _ _ _ _ _ _ _
             (default_observer_finite NaN true)). lra.
  - lra.
Defined.

(** C4, counterexample.  With [tail_weight = 0], no occlusion and an
    infinite prediction the density is zero, and the call returns minus
    infinity; at the negative density of [Probability_negative_example]
    the call returns NaN.  Neither call throws. *)
Lemma C4_counterexample :
  (Probability
     (Condition
        (new_KinectObserver (Fin 0) (Fin 0.003) (Fin 0.00142478) (Fin 1.0) (Fin 6.0)
           NaN false)
        PInf false)
     (Fin 1) = Fin 0
   /\ snd (invoke
             (Condition
                (new_KinectObserver (Fin 0) (Fin 0.003) (Fin 0.00142478) (Fin 1.0)
                   (Fin 6.0) NaN false)
                PInf false)
             (Call_LogProbability (Fin 1)))
      = Returns (Value NInf))
  /\ ((exists v : R,
         Probability (Condition (default_observer NaN false) (Fin (-1)) true)
           (Fin (-1)) = Fin v
         /\ (v < 0)%R)
      /\ snd (invoke (Condition (default_observer NaN false) (Fin (-1)) true)
                (Call_LogProbability (Fin (-1))))
         = Returns (Value NaN)
      /\ snd (invoke (Condition (default_observer NaN false) (Fin (-1)) true)
                (Call_LogProbability (Fin (-1))))
         <> Throws NumericalError).
Proof.
  assert (H0 : Probability
                 (Condition
                    (new_KinectObserver (Fin 0) (Fin 0.003) (Fin 0.00142478)
                       (Fin 1.0) (Fin 6.0) NaN false)
                    PInf false)
                 (Fin 1) = Fin 0).
  { rewrite (Probability_visible_infinite_real _ (- ln 0.5 / 1.0) 0 0.003
               0.00142478 6.0).
    - f_equal. lra.
    - apply new_KinectObserver_finite. lra.
    - lra. }
  split; [split | split; [ | split]].
  - exact H0.
  - cbn [invoke snd]. unfold LogProbability. rewrite H0.
    rewrite log_zero by reflexivity. reflexivity.
  - exact Probability_negative_example.
  - destruct Probability_negative_example as (v & Hv & Hneg).
    cbn [invoke snd]. unfold LogProbability. rewrite Hv.
    rewrite log_negative by exact Hneg. reflexivity.
  - cbn [invoke snd]. discriminate.
Qed.

(** C7 (amended).  The constructor never fails: for all arguments it
    returns the object holding the four parameters as given and
    [exponential_rate_ = - log 0.5 / half_life_depth].  For a positive
    finite half-life depth the rate is the positive number
    [- ln 0.5 / half_life_depth], at which the exponential prior halves
    over one half-life depth. *)
Theorem C7_constructor_returns
  (tail_weight model_sigma sigma_factor half_life_depth max_depth : Scalar)
  (u : Scalar) (b : bool) :
  let this :=
    new_KinectObserver tail_weight model_sigma sigma_factor half_life_depth
      max_depth u b in
  construct tail_weight model_sigma sigma_factor half_life_depth max_depth u b
  = Returns this
  /\ this.(tail_weight_) = tail_weight
  /\ this.(model_sigma_) = model_sigma
  /\ this.(sigma_factor_) = sigma_factor
  /\ this.(max_depth_) = max_depth
  /\ this.(exponential_rate_) = - std.log (Fin 0.5) / half_life_depth
  /\ (forall hl : R,
        half_life_depth = Fin hl -> (0 < hl)%R ->
        this.(exponential_rate_) = Fin (- ln 0.5 / hl)
        /\ (0 < - ln 0.5 / hl)%R
        /\ Rtrigo_def.exp (- (- ln 0.5 / hl) * hl) = (1 / 2)%R).
Proof.
  cbv zeta. repeat split.
  - subst. cbn [new_KinectObserver exponential_rate_].
    rewrite log_Fin by lra. cbn [Sneg]. apply Sdiv_Fin. lra.
  - apply exponential_rate_pos. assumption.
  - replace (- (- ln 0.5 / hl) * hl)%R with (ln 0.5) by (field; lra).
    rewrite exp_ln; lra.
Qed.

Lemma C7_witness :
  exponential_rate_ (default_observer NaN false) = Fin (- ln 0.5 / 1.0)
  /\ (0 < - ln 0.5 / 1.0)%R
  /\ Rtrigo_def.exp (- (- ln 0.5 / 1.0) * 1.0) = (1 / 2)%R.
Proof.
  apply (proj2 (proj2 (proj2 (proj2 (proj2 (proj2
           (C7_constructor_returns default_tail_weight default_model_sigma
              default_sigma_factor default_half_life_depth default_max_depth
              NaN false)))))) 1.0%R).
  - reflexivity.
  - lra.
Defined.

(** C7, counterexample.  Construction with [max_depth] zero or negative,
    and with [half_life_depth] zero or negative, returns an object and
    throws nothing; with half-life depth zero the stored rate is
    +infinity, with half-life depth -1 it is the negative number
    [ln 0.5]. *)
Lemma C7_counterexample :
  construct default_tail_weight default_model_sigma default_sigma_factor
    default_half_life_depth (Fin 0) NaN false
  = Returns (new_KinectObserver default_tail_weight default_model_sigma
               default_sigma_factor default_half_life_depth (Fin 0) NaN false)
  /\ construct default_tail_weight default_model_sigma default_sigma_factor
       default_half_life_depth (Fin (-1)) NaN false
     = Returns (new_KinectObserver default_tail_weight default_model_sigma
                  default_sigma_factor default_half_life_depth (Fin (-1)) NaN false)
  /\ construct default_tail_weight default_model_sigma default_sigma_factor
       default_half_life_depth (Fin 0) NaN false
     <> Throws ConfigurationError
  /\ (exists this : KinectObserver,
        construct default_tail_weight default_model_sigma default_sigma_factor
          (Fin 0) default_max_depth NaN false = Returns this
        /\ this.(exponential_rate_) = PInf)
  /\ (exists this : KinectObserver,
        construct default_tail_weight default_model_sigma default_sigma_factor
          (Fin (-1)) default_max_depth NaN false = Returns this
        /\ this.(exponential_rate_) = Fin (ln 0.5)
        /\ (ln 0.5 < 0)%R).
Proof.
  pose proof ln_half_neg as Hln.
  split; [reflexivity | ]. split; [reflexivity | ].
  split; [discriminate | ]. split.
  - eexists. split; [reflexivity | ].
    cbn [new_KinectObserver exponential_rate_].
    rewrite log_Fin by lra. cbn [Sneg]. apply Sdiv_by_zero; lra.
  - eexists. split; [reflexivity | ]. split; [ | lra].
    cbn [new_KinectObserver exponential_rate_].
    rewrite log_Fin by lra. cbn [Sneg]. rewrite Sdiv_Fin by lra.
    f_equal. field.
Qed.

(** Queries do not change the object. *)
Lemma invoke_query_state this c : is_query c = true -> fst (invoke this c) = this.
Proof. destruct c; [discriminate | reflexivity | reflexivity]. Qed.

Lemma run_queries this cs :
  forallb is_query cs = true ->
  run this cs = (this, map (fun c => snd (invoke this c)) cs).
Proof.
  induction cs as [ | c cs IH]; intros Hq.
  - reflexivity.
  - cbn [forallb] in Hq. apply andb_true_iff in Hq as [Hc Hcs].
    cbn [run map].
    pose proof (invoke_query_state this c Hc) as Hst.
    destruct (invoke this c) as [this' r]. cbn [fst snd] in *. subst this'.
    rewrite (IH Hcs). reflexivity.
Qed.

(** C10.  After one [Condition (prediction, occlusion)], any sequence of
    [Probability] and [LogProbability] calls leaves the stored context in
    place: the final object is the conditioned one, every reply is the one
    computed against that same context, and so each [Probability] call
    with a given observation returns the same value, however many queries
    came before it. *)
Theorem C10_queries_keep_context
  (this : KinectObserver) (prediction : Scalar) (occlusion : bool)
  (cs : list call) :
  forallb is_query cs = true ->
  let conditioned := Condition this prediction occlusion in
  run this (Call_Condition prediction occlusion :: cs)
  = (conditioned, Returns Void :: map (fun c => snd (invoke conditioned c)) cs)
  /\ (fst (run this (Call_Condition prediction occlusion :: cs))).(prediction_)
     = prediction
  /\ (fst (run this (Call_Condition prediction occlusion :: cs))).(occlusion_)
     = occlusion
  /\ (forall (i : nat) (obs : Scalar),
        nth_error cs i = Some (Call_Probability obs) ->
        nth_error (snd (run this (Call_Condition prediction occlusion :: cs))) (S i)
        = Some (Returns (Value (Probability conditioned obs))))
  /\ (forall (i j : nat) (obs : Scalar),
        nth_error cs i = Some (Call_Probability obs) ->
        nth_error cs j = Some (Call_Probability obs) ->
        nth_error (snd (run this (Call_Condition prediction occlusion :: cs))) (S i)
        = nth_error (snd (run this (Call_Condition prediction occlusion :: cs))) (S j)).
Proof.
  intros Hq conditioned.
  assert (Hrun : run this (Call_Condition prediction occlusion :: cs)
                 = (conditioned,
                    Returns Void :: map (fun c => snd (invoke conditioned c)) cs)).
  { cbn [run invoke]. fold conditioned. rewrite (run_queries conditioned cs Hq).
    reflexivity. }
  assert (Hnth : forall i obs,
             nth_error cs i = Some (Call_Probability obs) ->
             nth_error (snd (run this (Call_Condition prediction occlusion :: cs)))
               (S i)
             = Some (Returns (Value (Probability conditioned obs)))).
  { intros i obs Hi. rewrite Hrun. cbn [snd nth_error].
    rewrite nth_error_map, Hi. reflexivity. }
  rewrite Hrun. cbn [fst snd]. repeat split.
  - intros i obs Hi. rewrite <- (Hnth i obs Hi), Hrun. reflexivity.
  - intros i j obs Hi Hj.
    pose proof (Hnth i obs Hi) as Ei. pose proof (Hnth j obs Hj) as Ej.
    rewrite Hrun in Ei, Ej. cbn [snd] in Ei, Ej. rewrite Ei, Ej. reflexivity.
Qed.

Lemma C10_witness :
  let conditioned := Condition (default_observer NaN true) (Fin 2) false in
  let cs := [Call_Probability (Fin 1); Call_LogProbability (Fin 1);
             Call_Probability (Fin 1)] in
  run (default_observer NaN true) (Call_Condition (Fin 2) false :: cs)
  = (conditioned, Returns Void :: map (fun c => snd (invoke conditioned c)) cs).
Proof.
  cbv zeta.
  apply (C10_queries_keep_context (default_observer NaN true) (Fin 2) false
           [Call_Probability (Fin 1); Call_LogProbability (Fin 1);
            Call_Probability (Fin 1)]).
  reflexivity.
Defined.

End KinectObserverFacts.

(* ================================================================= *)
(** ** The sign of the density under rounding and overflow *)

Section RoundedFacts.
Context {arithmetic : DoubleArithmetic}.

Lemma round_not_NaN x : round x <> NaN.
Proof.
  intros E. destruct (Rle_dec 0 x) as [Hx | Hx].
  - pose proof (round_nonneg x Hx) as H. rewrite E in H. exact H.
  - pose proof (round_nonpos x ltac:(lra)) as H. rewrite E in H. exact H.
Qed.

Lemma Rsignbit_pos c : (0 < c)%R -> Rsignbit c = false.
Proof. intros Hc. unfold Rsignbit. destruct (Rlt_dec c 0); [lra | reflexivity]. Qed.

Lemma Snonneg_add x y : Snonneg x -> Snonneg y -> Snonneg (Rounded.add x y).
Proof.
  destruct x as [a | [] | ], y as [b | [] | ]; cbn; try tauto; try discriminate.
  intros Ha Hb. apply round_nonneg. lra.
Qed.

Lemma Snonneg_mul_Fin a b :
  (0 <= a)%R -> (0 <= b)%R -> Snonneg (Rounded.mul (Fin a) (Fin b)).
Proof. intros Ha Hb. cbn. apply round_nonneg. apply Rmult_le_pos; assumption. Qed.

Lemma Snonneg_div_positive x c :
  Snonneg x -> (0 < c)%R -> Snonneg (Rounded.div x (Fin c)).
Proof.
  intros Hx Hc. destruct x as [a | s | ]; cbn in *; [ | | contradiction].
  - destruct (Req_dec_T c 0); [lra | ].
    apply round_nonneg. apply Rmult_le_pos; [exact Hx | ].
    left. apply Rinv_0_lt_compat, Hc.
  - subst s. rewrite Rsignbit_pos by exact Hc. reflexivity.
Qed.

Lemma mul_Fin_inv x y t :
  Rounded.mul x y = Fin t ->
  exists a b : R, x = Fin a /\ y = Fin b /\ round (a * b) = Fin t.
Proof.
  destruct x as [a | s | ], y as [b | s' | ]; cbn; try discriminate.
  - intros E. exists a, b. auto.
  - destruct (Req_dec_T a 0); discriminate.
  - destruct (Req_dec_T b 0); discriminate.
Qed.

Lemma round_Fin_nonneg x v : (0 <= x)%R -> round x = Fin v -> (0 <= v)%R.
Proof. intros Hx E. pose proof (round_nonneg x Hx) as H. rewrite E in H. exact H. Qed.

Lemma exp_Fin_nonneg x v : Rounded.exp x = Fin v -> (0 <= v)%R.
Proof.
  destruct x as [a | [] | ]; cbn; try discriminate.
  - intros E. pose proof (exp_d_nonneg a) as H. rewrite E in H. exact H.
  - intros E. injection E as <-. lra.
Qed.

(** [1 - tail_weight] for a tail weight in [0, 1]. *)
Lemma one_minus_tail tw :
  (0 <= tw <= 1)%R ->
  exists w : R, Rounded.sub (Fin 1) (Fin tw) = Fin w /\ (0 <= w)%R.
Proof.
  intros Htw. unfold Rounded.sub. cbn.
  destruct (round_small (1 + - tw)) as [w Hw].
  { apply Rabs_le. lra. }
  exists w. split; [exact Hw | ].
  apply (round_Fin_nonneg (1 + - tw)); [lra | exact Hw].
Qed.

Lemma tail_term_nonneg tw md :
  (0 <= tw)%R -> (0 < md)%R -> Snonneg (Rounded.div (Fin tw) (Fin md)).
Proof. intros Htw Hmd. apply Snonneg_div_positive; [exact Htw | exact Hmd]. Qed.

(** The rate the constructor computes from a positive half-life depth. *)
Lemma exponential_rate_nonneg hl :
  (0 < hl)%R ->
  Snonneg (Rounded.div (Rounded.neg (Rounded.log (Fin 0.5))) (Fin hl)).
Proof.
  intros Hhl. apply Snonneg_div_positive; [ | exact Hhl].
  cbn. destruct (Rlt_dec 0 0.5) as [_ | H]; [ | lra].
  apply log_d_nonpos. lra.
Qed.

(** A finite exponential factor is not negative. *)
Lemma occlusion_product_nonneg tw rate e t :
  (0 <= tw <= 1)%R -> Snonneg rate ->
  Rounded.mul (Rounded.mul (Rounded.sub (Fin 1) (Fin tw)) rate) (Rounded.exp e) = Fin t ->
  (0 <= t)%R.
Proof.
  intros Htw Hrate E.
  destruct (mul_Fin_inv _ _ _ E) as (a & v & Ha & Hv & Ht).
  destruct (mul_Fin_inv _ _ _ Ha) as (w & r & Hw & Hr & Hwr).
  destruct (one_minus_tail tw Htw) as (w' & Hw' & Hw0).
  rewrite Hw' in Hw. injection Hw as <-.
  rewrite Hr in Hrate. cbn in Hrate.
  assert (Ha0 : (0 <= a)%R).
  { apply (round_Fin_nonneg (w' * r)); [apply Rmult_le_pos; assumption | exact Hwr]. }
  pose proof (exp_Fin_nonneg _ _ Hv) as Hv0.
  apply (round_Fin_nonneg (a * v)); [apply Rmult_le_pos; assumption | exact Ht].
Qed.

Lemma mul_not_NaN_inv x y :
  Rounded.mul x y <> NaN -> x <> NaN /\ y <> NaN.
Proof.
  intros H. split; intros ->; apply H; [reflexivity | destruct x; reflexivity].
Qed.

Lemma Snonneg_mul x y :
  Snonneg x -> Snonneg y -> Rounded.mul x y <> NaN -> Snonneg (Rounded.mul x y).
Proof.
  destruct x as [a | s | ], y as [b | s' | ]; cbn; try contradiction.
  - intros Ha Hb _. apply round_nonneg. apply Rmult_le_pos; assumption.
  - intros Ha -> H. destruct (Req_dec_T a 0); [contradiction | ].
    assert (0 < a)%R by lra. rewrite Rsignbit_pos by assumption. reflexivity.
  - intros -> Hb H. destruct (Req_dec_T b 0); [contradiction | ].
    assert (0 < b)%R by lra. rewrite Rsignbit_pos by assumption. reflexivity.
  - intros -> -> _. reflexivity.
Qed.

Lemma Snonneg_exp x : Rounded.exp x <> NaN -> Snonneg (Rounded.exp x).
Proof.
  destruct x as [a | [] | ]; cbn; intros H.
  - apply exp_d_nonneg.
  - lra.
  - reflexivity.
  - contradiction.
Qed.

(** An exponential factor that is not NaN is not negative. *)
Lemma occlusion_product_sign tw rate e :
  (0 <= tw <= 1)%R -> Snonneg rate ->
  Rounded.mul (Rounded.mul (Rounded.sub (Fin 1) (Fin tw)) rate) (Rounded.exp e) <> NaN ->
  Snonneg
    (Rounded.mul (Rounded.mul (Rounded.sub (Fin 1) (Fin tw)) rate) (Rounded.exp e)).
Proof.
  intros Htw Hrate H.
  destruct (mul_not_NaN_inv _ _ H) as [HA HE].
  destruct (one_minus_tail tw Htw) as (w & Hw & Hw0).
  rewrite Hw in *.
  apply Snonneg_mul; [ | apply Snonneg_exp, HE | exact H].
  apply Snonneg_mul; [exact Hw0 | exact Hrate | exact HA].
Qed.

Lemma Snonneg_pow_2 x : x <> NaN -> Snonneg (Rounded.pow x 2).
Proof.
  destruct x as [a | s | ]; cbn; [ | | congruence]; intros _.
  - apply round_nonneg. nra.
  - destruct s; reflexivity.
Qed.

Lemma sub_Fin_not_NaN a b : Rounded.sub (Fin a) (Fin b) <> NaN.
Proof. unfold Rounded.sub. cbn. apply round_not_NaN. Qed.

(** [exp (- q)] for [q >= 0] is a finite number that is not negative. *)
Lemma exp_neg_finite q :
  Snonneg q -> exists v : R, Rounded.exp (Rounded.neg q) = Fin v /\ (0 <= v)%R.
Proof.
  destruct q as [a | s | ]; cbn; [ | | contradiction].
  - intros Ha. destruct (exp_d_finite (- a) ltac:(lra)) as [v Hv].
    exists v. split; [exact Hv | ].
    pose proof (exp_d_nonneg (- a)) as H. rewrite Hv in H. exact H.
  - intros ->. cbn. exists 0%R. split; [reflexivity | lra].
Qed.

(** [1 + erf y] for an argument that is not NaN. *)
Lemma one_plus_erf y :
  y <> NaN ->
  exists f : R, Rounded.add (Fin 1) (Rounded.erf y) = Fin f /\ (0 <= f)%R.
Proof.
  intros Hy.
  assert (He : exists e : R, Rounded.erf y = Fin e /\ (-1 <= e <= 1)%R).
  { destruct y as [a | [] | ]; cbn; [ | | | congruence].
    - exists (erf_d a). split; [reflexivity | apply erf_d_range].
    - exists (-1)%R. split; [reflexivity | lra].
    - exists 1%R. split; [reflexivity | lra]. }
  destruct He as (e & -> & He). cbn.
  destruct (round_small (1 + e)) as [f Hf].
  { apply Rabs_le. lra. }
  exists f. split; [exact Hf | ].
  apply (round_Fin_nonneg (1 + e)); [lra | exact Hf].
Qed.

Lemma Sfinite_positive_inv x :
  Sfinite_positive x -> exists c : R, x = Fin c /\ (0 < c)%R.
Proof. destruct x as [c | | ]; cbn; [eauto | contradiction | contradiction]. Qed.

(** In a well-conditioned call the density is the tail term, or the tail
    term plus a term that is not negative. *)
Lemma Probability_tail_plus (this : KinectObserver) (tw : R) (obs : R) :
  this.(tail_weight_) = Fin tw -> (0 <= tw <= 1)%R ->
  Snonneg this.(exponential_rate_) ->
  Rounded.well_conditioned this (Fin obs) ->
  Rounded.Probability this (Fin obs) = Rounded.tail_term this
  \/ exists g : Scalar,
       Snonneg g /\
       Rounded.Probability this (Fin obs) = Rounded.add (Rounded.tail_term this) g.
Proof.
  intros Htw Htw01 Hrate Hwc.
  unfold Rounded.well_conditioned in Hwc.
  unfold Rounded.Probability, Rounded.tail_term.
  destruct (prediction_ this) as [p | s | ] eqn:Hp;
    destruct (occlusion_ this) eqn:Hocc; cbn [negb std.isinf];
    try contradiction.
  - (* occluded, finite prediction *)
    right.
    destruct Hwc as ([n1 Hn1] & Hy & HD).
    unfold Rounded.occlusion_factor, Rounded.occlusion_exponent in Hn1.
    rewrite Hp in Hn1. cbn [std.isinf] in Hn1.
    unfold Rounded.sigma in Hn1. rewrite Htw in Hn1 |- *.
    pose proof (occlusion_product_nonneg _ _ _ _ Htw01 Hrate Hn1) as Hn10.
    rewrite Hn1.
    unfold Rounded.erf_argument, Rounded.sigma in Hy. rewrite Hp in Hy.
    destruct (one_plus_erf _ Hy) as (f & Hf & Hf0). rewrite Hf.
    unfold Rounded.truncation_divisor in HD. rewrite Hp in HD.
    destruct (Sfinite_positive_inv _ HD) as (d & Hd & Hd0). rewrite Hd.
    eexists. split; [ | reflexivity].
    apply Snonneg_div_positive; [ | exact Hd0].
    apply Snonneg_mul_Fin; assumption.
  - (* not occluded, finite prediction *)
    right.
    destruct Hwc as (Hden1 & Hden2).
    unfold Rounded.exponent_divisor, Rounded.sigma in Hden1.
    unfold Rounded.gaussian_divisor, Rounded.sigma in Hden2.
    destruct (Sfinite_positive_inv _ Hden1) as (c1 & Hc1 & Hc10). rewrite Hc1.
    destruct (Sfinite_positive_inv _ Hden2) as (c2 & Hc2 & Hc20). rewrite Hc2.
    rewrite Htw.
    destruct (one_minus_tail tw Htw01) as (w & Hw & Hw0). rewrite Hw.
    assert (Hq : Snonneg (Rounded.div (Rounded.pow (Rounded.sub (Fin p) (Fin obs)) 2)
                            (Fin c1))).
    { apply Snonneg_div_positive; [ | exact Hc10].
      apply Snonneg_pow_2, sub_Fin_not_NaN. }
    destruct (exp_neg_finite _ Hq) as (v & Hv & Hv0). rewrite Hv.
    eexists. split; [ | reflexivity].
    apply Snonneg_div_positive; [ | exact Hc20].
    apply Snonneg_mul_Fin; assumption.
  - (* occluded, infinite prediction *)
    right.
    unfold Rounded.occlusion_factor, Rounded.occlusion_exponent in Hwc.
    rewrite Hp in Hwc. cbn [std.isinf] in Hwc.
    unfold Rounded.sigma in Hwc. rewrite Htw in Hwc |- *.
    eexists. split; [ | reflexivity].
    apply (occlusion_product_sign _ _ _ Htw01 Hrate Hwc).
  - (* not occluded, infinite prediction *)
    left. reflexivity.
Qed.

Lemma Probability_sign (this : KinectObserver) (tw md : R) (obs : R) :
  this.(tail_weight_) = Fin tw -> (0 <= tw <= 1)%R ->
  this.(max_depth_) = Fin md -> (0 < md)%R ->
  Snonneg this.(exponential_rate_) ->
  Rounded.well_conditioned this (Fin obs) ->
  Snonneg (Rounded.Probability this (Fin obs)).
Proof.
  intros Htw Htw01 Hmd Hmd0 Hrate Hwc.
  assert (HT : Snonneg (Rounded.tail_term this)).
  { unfold Rounded.tail_term. rewrite Htw, Hmd. apply tail_term_nonneg; lra. }
  destruct (Probability_tail_plus this tw obs Htw Htw01 Hrate Hwc)
    as [-> | (g & Hg & ->)].
  - exact HT.
  - apply Snonneg_add; assumption.
Qed.

(** C5 (amended).  For every valid parameter set, every finite observation
    and every context, a well-conditioned call of [Probability] returns a
    result that is [>= 0] as doubles compare: a finite number that is not
    negative, or +infinity; never NaN and never a negative number.  Well
    conditioned means, in the branch the call takes: without occlusion
    and with a finite prediction, that the divisors [2 * sigma * sigma]
    and [sqrt (2 * M_PI) * sigma] are computed as positive finite numbers;
    with occlusion and an infinite prediction, that the factor
    [(1 - tail_weight) * rate * exp (...)] is not NaN; with occlusion and
    a finite prediction, that this factor is computed as a finite number,
    the argument of [erf] is not NaN and the divisor
    [2 * (exp (prediction * rate) - 1)] is computed as a positive finite
    number.  This holds in every arithmetic that rounds as described
    above, whatever it does on overflow and underflow. *)
Theorem C5_Probability_nonnegative
  (tw ms sf hl md : R) (u : Scalar) (b : bool)
  (prediction : Scalar) (occlusion : bool) (obs : R) :
  valid_parameters tw ms sf hl md ->
  Rounded.well_conditioned
    (Condition
       (Rounded.new_KinectObserver (Fin tw) (Fin ms) (Fin sf) (Fin hl) (Fin md) u b)
       prediction occlusion)
    (Fin obs) ->
  Snonneg
    (Rounded.Probability
       (Condition
          (Rounded.new_KinectObserver (Fin tw) (Fin ms) (Fin sf) (Fin hl) (Fin md) u b)
          prediction occlusion)
       (Fin obs)).
Proof.
  intros (Htw & Hms & Hsf & Hhl & Hmd) Hwc.
  apply (Probability_sign _ tw md); try reflexivity; try lra; try exact Hwc.
  cbn. apply exponential_rate_nonneg, Hhl.
Qed.

End RoundedFacts.

(** With exact arithmetic the embedding of this section is the exact one. *)
Lemma Probability_exact_arithmetic (this : KinectObserver) (observation : Scalar) :
  @Rounded.Probability exact_arithmetic this observation = Probability this observation.
Proof. reflexivity. Qed.

Lemma LogProbability_exact_arithmetic (this : KinectObserver) (observation : Scalar) :
  @Rounded.LogProbability exact_arithmetic this observation
  = LogProbability this observation.
Proof. reflexivity. Qed.

Lemma new_KinectObserver_exact_arithmetic tw ms sf hl md u b :
  @Rounded.new_KinectObserver exact_arithmetic tw ms sf hl md u b
  = new_KinectObserver tw ms sf hl md u b.
Proof. reflexivity. Qed.

Lemma animate_exact_arithmetic this h current dt dilation next :
  @Rounded.animate exact_arithmetic this h current dt dilation next
  = animate this h current dt dilation next.
Proof. reflexivity. Qed.

(** *** Arithmetic that is exact up to overflow *)

Section RangeArithmeticFacts.

Lemma add_in_range a b :
  in_double_range (a + b) ->
  @Rounded.add binary64_range (Fin a) (Fin b) = Fin (a + b).
Proof. intros H. cbn. apply round_in_range, H. Qed.

Lemma sub_in_range a b :
  in_double_range (a - b) ->
  @Rounded.sub binary64_range (Fin a) (Fin b) = Fin (a - b).
Proof. intros H. unfold Rounded.sub. cbn. apply round_in_range, H. Qed.

Lemma mul_in_range a b :
  in_double_range (a * b) ->
  @Rounded.mul binary64_range (Fin a) (Fin b) = Fin (a * b).
Proof. intros H. cbn. apply round_in_range, H. Qed.

Lemma div_in_range a b :
  b <> 0%R -> in_double_range (a / b) ->
  @Rounded.div binary64_range (Fin a) (Fin b) = Fin (a / b).
Proof.
  intros Hb H. cbn. destruct (Req_dec_T b 0); [contradiction | ].
  apply round_in_range, H.
Qed.

Lemma exp_in_range a :
  (Rtrigo_def.exp a < 1048576)%R ->
  @Rounded.exp binary64_range (Fin a) = Fin (Rtrigo_def.exp a).
Proof.
  intros H. cbn. apply round_in_range, small_in_double_range. pose proof (exp_pos a).
  rewrite Rabs_right; lra.
Qed.

(** [exp] overflows from [1024 * ln 2] on. *)
Lemma exp_overflow a :
  (1024 * ln 2 <= a)%R -> @Rounded.exp binary64_range (Fin a) = PInf.
Proof.
  intros H. cbn. apply round_overflow.
  unfold overflow_threshold.
  rewrite <- (Rpower_pow 1024 2) by lra. unfold Rpower.
  rewrite INR_IZR_INZ. change (Z.of_nat 1024) with 1024%Z.
  destruct H as [H | <-]; [ | lra].
  left. apply exp_increasing, H.
Qed.

Lemma sqrt_range a :
  (0 <= a)%R -> @Rounded.sqrt binary64_range (Fin a) = Fin (sqrt a).
Proof. intros H. cbn. destruct (Rle_dec 0 a); [reflexivity | contradiction]. Qed.

Lemma mul_Fin_PInf a :
  (0 < a)%R -> @Rounded.mul binary64_range (Fin a) PInf = PInf.
Proof.
  intros H. cbn. destruct (Req_dec_T a 0); [lra | ].
  rewrite Rsignbit_pos by exact H. reflexivity.
Qed.

Lemma mul_PInf_Fin a :
  (0 < a)%R -> @Rounded.mul binary64_range PInf (Fin a) = PInf.
Proof.
  intros H. cbn. destruct (Req_dec_T a 0); [lra | ].
  rewrite Rsignbit_pos by exact H. reflexivity.
Qed.

Lemma div_bound a b M :
  (0 < b)%R -> (- (M * b) < a < M * b)%R -> (Rabs (a / b) < M)%R.
Proof.
  intros Hb Ha. apply Rabs_def1.
  - apply (Rmult_lt_reg_r b); [exact Hb | ]. unfold Rdiv.
    rewrite Rmult_assoc, Rinv_l by lra. lra.
  - apply (Rmult_lt_reg_r b); [exact Hb | ]. unfold Rdiv.
    rewrite Rmult_assoc, Rinv_l by lra. lra.
Qed.

Lemma ln_2_bounds : (/ 2 < ln 2 < 1)%R.
Proof.
  split; [exact ln_lt_2 | ].
  rewrite <- (ln_exp 1). apply ln_increasing; [lra | ].
  pose proof (exp_ineq1 1). lra.
Qed.

Lemma sqrt_2_bounds : (1 < sqrt 2 < 2)%R.
Proof.
  split.
  - rewrite <- sqrt_1 at 1. apply sqrt_lt_1; lra.
  - replace 2%R with (sqrt 4) at 2.
    + apply sqrt_lt_1; lra.
    + replace 4%R with (2 * 2)%R by lra. apply sqrt_square. lra.
Qed.

Lemma default_rate : (- ln 0.5 / 1.0 = ln 2)%R.
Proof.
  replace 0.5%R with (/ 2)%R by lra. rewrite ln_Rinv by lra. lra.
Qed.

Lemma exp_le_9 x : (x <= 2)%R -> (Rtrigo_def.exp x <= 9)%R.
Proof.
  intros Hx.
  assert (H2 : (Rtrigo_def.exp 2 <= 9)%R).
  { replace 2%R with (1 + 1)%R by lra. rewrite exp_plus.
    pose proof exp_le_3. pose proof (exp_pos 1). nra. }
  destruct (Req_dec x 2) as [-> | Hne]; [exact H2 | ].
  pose proof (exp_increasing x 2 ltac:(lra)). lra.
Qed.

(** With the default arguments the constructor computes, in this
    arithmetic, the observer it computes in exact arithmetic. *)
Lemma default_observer_in_range u b :
  @Rounded.new_KinectObserver binary64_range (Fin 0.01) (Fin 0.003) (Fin 0.00142478)
    (Fin 1.0) (Fin 6.0) u b
  = default_observer u b.
Proof.
  unfold Rounded.new_KinectObserver, default_observer, new_KinectObserver.
  f_equal.
  cbn [Rounded.log Rounded.neg std.log Sneg].
  destruct (Rlt_dec 0 0.5) as [_ | H]; [ | lra].
  cbn [Sneg log_d binary64_range Rounded.neg]. unfold default_half_life_depth.
  rewrite div_in_range.
  - rewrite Sdiv_Fin by lra. reflexivity.
  - lra.
  - apply small_in_double_range.
    rewrite default_rate. pose proof ln_2_bounds. rewrite Rabs_right; lra.
Qed.

End RangeArithmeticFacts.

Ltac in_range :=
  match goal with
  | |- in_double_range (_ / _) =>
      apply small_in_double_range, div_bound; nra
  | |- in_double_range _ => apply small_in_double_range, Rabs_def1; nra
  | |- _ => nra
  end.

(** Overflow: default parameters, occlusion flag set, predicted depth
    1025, observation 1.  [exp (prediction * rate)] and the exponential
    factor both overflow and the quotient is infinity / infinity. *)
Lemma Probability_overflow_example :
  @Rounded.Probability binary64_range
    (Condition
       (@Rounded.new_KinectObserver binary64_range (Fin 0.01) (Fin 0.003)
          (Fin 0.00142478) (Fin 1.0) (Fin 6.0) NaN false)
       (Fin 1025) true)
    (Fin 1) = NaN.
Proof.
  rewrite default_observer_in_range.
  destruct (default_observer_finite NaN false) as (Hr & Htw & Hms & Hsf & Hmd).
  pose proof ln_2_bounds as Hln. pose proof default_rate as Hrate.
  pose proof sqrt_2_bounds as H2.
  set (r := (- ln 0.5 / 1.0)%R) in *.
  unfold Rounded.Probability.
  cbn [Condition occlusion_ prediction_ tail_weight_ max_depth_ model_sigma_
         sigma_factor_ exponential_rate_ negb std.isinf].
  rewrite Hr, Htw, Hms, Hsf, Hmd.
  repeat (first [ rewrite mul_in_range by in_range
                | rewrite add_in_range by in_range
                | rewrite sub_in_range by in_range
                | rewrite sqrt_range by lra ]; cbn [Rounded.neg Sneg]).
  rewrite exp_overflow by nra.
  rewrite exp_overflow by nra.
  rewrite mul_Fin_PInf by nra.
  rewrite (div_in_range (1025 - 1 + _)) by in_range.
  cbn [Rounded.erf erf_d binary64_range].
  match goal with
  | |- context [ErrorFunction.erf ?y] => pose proof (ErrorFunction.erf_range y) as He
  end.
  rewrite add_in_range by (apply small_in_double_range, Rabs_def1; lra).
  rewrite mul_PInf_Fin by lra.
  rewrite div_in_range by in_range.
  unfold Rounded.sub. cbn [Rounded.neg Sneg Rounded.add].
  rewrite mul_Fin_PInf by lra.
  reflexivity.
Qed.

Lemma round_overflow_neg x :
  (x <= - overflow_threshold)%R -> round_to_range x = NInf.
Proof.
  intros Hx. unfold round_to_range. pose proof overflow_threshold_large.
  destruct (Rlt_dec (Rabs x) overflow_threshold) as [H1 | H1].
  - rewrite Rabs_left in H1 by lra. lra.
  - unfold Rsignbit. destruct (Rlt_dec x 0); [reflexivity | lra].
Qed.

Lemma mul_overflow a b :
  (overflow_threshold <= a * b)%R ->
  @Rounded.mul binary64_range (Fin a) (Fin b) = PInf.
Proof. intros H. cbn. apply round_overflow, H. Qed.

Lemma mul_overflow_neg a b :
  (a * b <= - overflow_threshold)%R ->
  @Rounded.mul binary64_range (Fin a) (Fin b) = NInf.
Proof. intros H. cbn. apply round_overflow_neg, H. Qed.

Lemma rounded_add_NaN_r {arithmetic : DoubleArithmetic} x : Rounded.add x NaN = NaN.
Proof. destruct x; reflexivity. Qed.

Lemma rounded_mul_NaN_r {arithmetic : DoubleArithmetic} x : Rounded.mul x NaN = NaN.
Proof. destruct x; reflexivity. Qed.

Lemma rounded_div_NaN_l {arithmetic : DoubleArithmetic} y : Rounded.div NaN y = NaN.
Proof. reflexivity. Qed.

(** Overflow in the branch for an infinite prediction under occlusion:
    default parameters, observation 2^1023.  [- 2 * observation]
    overflows to -infinity and [sigma] to +infinity, and their sum is NaN. *)
Lemma Probability_occluded_infinite_overflow_example :
  @Rounded.Probability binary64_range
    (Condition
       (@Rounded.new_KinectObserver binary64_range (Fin 0.01) (Fin 0.003)
          (Fin 0.00142478) (Fin 1.0) (Fin 6.0) NaN false)
       PInf true)
    (Fin (2 ^ 1023)) = NaN.
Proof.
  rewrite default_observer_in_range.
  destruct (default_observer_finite NaN false) as (Hr & Htw & Hms & Hsf & Hmd).
  pose proof ln_2_bounds as Hln. pose proof default_rate as Hrate.
  set (r := (- ln 0.5 / 1.0)%R) in *.
  assert (HT : overflow_threshold = (2 * 2 ^ 1023)%R).
  { unfold overflow_threshold. change 1024%nat with (S 1023). reflexivity. }
  assert (HP : (1048576 <= 2 ^ 1023)%R).
  { replace 1048576%R with (2 ^ 20)%R by (simpl; lra). apply Rle_pow; [lra | lia]. }
  set (P := (2 ^ 1023)%R) in *.
  unfold Rounded.Probability.
  cbn [Condition occlusion_ prediction_ tail_weight_ max_depth_ model_sigma_
         sigma_factor_ exponential_rate_ negb std.isinf].
  rewrite Hr, Htw, Hms, Hsf, Hmd.
  rewrite (mul_in_range 0.00142478 P).
  2:{ unfold in_double_range. rewrite HT. apply Rabs_def1; nra. }
  rewrite (mul_overflow (0.00142478 * P) P) by (rewrite HT; nra).
  cbn [Rounded.add Rounded.neg Sneg].
  rewrite (mul_overflow_neg (- (2)) P) by (rewrite HT; lra).
  rewrite (mul_Fin_PInf r) by lra.
  cbn [Rounded.mul xorb Rounded.add Bool.eqb].
  rewrite rounded_mul_NaN_r. cbn [Rounded.exp].
  rewrite rounded_mul_NaN_r. apply rounded_add_NaN_r.
Qed.

(** Overflow in the branch for a finite prediction without occlusion:
    default parameters, predicted depth 2, observation 2^600.  The squared
    distance and [2 * sigma * sigma] both overflow, and the Gaussian
    exponent is infinity / infinity. *)
Lemma Probability_visible_overflow_example :
  @Rounded.Probability binary64_range
    (Condition
       (@Rounded.new_KinectObserver binary64_range (Fin 0.01) (Fin 0.003)
          (Fin 0.00142478) (Fin 1.0) (Fin 6.0) NaN false)
       (Fin 2) false)
    (Fin (2 ^ 600)) = NaN.
Proof.
  rewrite default_observer_in_range.
  destruct (default_observer_finite NaN false) as (Hr & Htw & Hms & Hsf & Hmd).
  assert (HT : overflow_threshold = (2 ^ 600 * 2 ^ 424)%R).
  { unfold overflow_threshold. rewrite <- pow_add. reflexivity. }
  assert (HPQ : (2 ^ 600 = 2 ^ 424 * 2 ^ 176)%R).
  { rewrite <- pow_add. reflexivity. }
  assert (HQ : (1048576 <= 2 ^ 424)%R).
  { replace 1048576%R with (2 ^ 20)%R by (simpl; lra). apply Rle_pow; [lra | lia]. }
  assert (HR : (1048576 <= 2 ^ 176)%R).
  { replace 1048576%R with (2 ^ 20)%R by (simpl; lra). apply Rle_pow; [lra | lia]. }
  set (P := (2 ^ 600)%R) in *. set (Q := (2 ^ 424)%R) in *. set (R0 := (2 ^ 176)%R) in *.
  assert (HP : (1048576 * 1048576 <= P)%R) by nra.
  unfold Rounded.Probability.
  cbn [Condition occlusion_ prediction_ tail_weight_ max_depth_ model_sigma_
         sigma_factor_ exponential_rate_ negb std.isinf].
  rewrite Htw, Hms, Hsf, Hmd.
  rewrite (mul_in_range 0.00142478 P).
  2:{ unfold in_double_range. rewrite HT. apply Rabs_def1; nra. }
  rewrite (mul_overflow (0.00142478 * P) P).
  2:{ rewrite HT. assert (1 <= 0.00142478 * R0)%R by lra.
      replace (0.00142478 * P * P)%R with (0.00142478 * R0 * (P * Q))%R
        by (rewrite HPQ at 2; ring).
      assert (0 <= P * Q)%R by nra. nra. }
  cbn [Rounded.add Rounded.mul].
  destruct (Req_dec_T 2 0) as [E | _]; [lra | ].
  cbn [xorb Rounded.mul].
  rewrite (sub_in_range 2 P).
  2:{ unfold in_double_range. rewrite HT. apply Rabs_def1; nra. }
  cbn [Rounded.pow].
  rewrite (mul_overflow (2 - P) (2 - P)).
  2:{ rewrite HT. assert (P / 2 <= P - 2)%R by lra.
      assert (P * Q <= P / 2 * (P / 2))%R.
      { replace (P / 2 * (P / 2))%R with (R0 / 4 * (P * Q))%R
          by (rewrite HPQ at 2; field).
        assert (0 <= P * Q)%R by nra. nra. }
      nra. }
  cbn [Rounded.div Rounded.neg Sneg Rounded.exp].
  rewrite rounded_mul_NaN_r, rounded_div_NaN_l. apply rounded_add_NaN_r.
Qed.

(** A well-conditioned call: default parameters, occlusion flag set,
    predicted depth 2, observation 1. *)
Lemma well_conditioned_example :
  @Rounded.well_conditioned binary64_range
    (Condition
       (@Rounded.new_KinectObserver binary64_range (Fin 0.01) (Fin 0.003)
          (Fin 0.00142478) (Fin 1.0) (Fin 6.0) NaN false)
       (Fin 2) true)
    (Fin 1).
Proof.
  rewrite default_observer_in_range.
  destruct (default_observer_finite NaN false) as (Hr & Htw & Hms & Hsf & Hmd).
  pose proof ln_2_bounds as Hln. pose proof default_rate as Hrate.
  pose proof sqrt_2_bounds as H2.
  set (r := (- ln 0.5 / 1.0)%R) in *.
  unfold Rounded.well_conditioned.
  cbn [Condition occlusion_ prediction_].
  unfold Rounded.occlusion_factor, Rounded.occlusion_exponent, Rounded.erf_argument,
    Rounded.truncation_divisor, Rounded.sigma.
  cbn [Condition occlusion_ prediction_ tail_weight_ max_depth_ model_sigma_
         sigma_factor_ exponential_rate_ negb std.isinf].
  rewrite Hr, Htw, Hms, Hsf.
  repeat (first [ rewrite mul_in_range by in_range
                | rewrite add_in_range by in_range
                | rewrite sub_in_range by in_range
                | rewrite sqrt_range by lra ]; cbn [Rounded.neg Sneg]).
  match goal with
  | |- context [Rounded.exp (Fin ?x)] =>
      assert (Hx : (x <= 2)%R) by nra;
      pose proof (exp_le_9 x Hx) as He; pose proof (exp_pos x) as He0
  end.
  rewrite exp_in_range by lra.
  rewrite mul_in_range by in_range.
  assert (Hy : (Rtrigo_def.exp (2 * r) <= 9)%R) by (apply exp_le_9; lra).
  pose proof (exp_gt_1 (2 * r) ltac:(lra)) as Hy1.
  rewrite exp_in_range by lra.
  rewrite sub_in_range by in_range.
  rewrite mul_in_range by in_range.
  rewrite div_in_range by in_range.
  split; [eexists; reflexivity | ]. split; [discriminate | ].
  cbn. lra.
Qed.

Lemma tail_term_example :
  Sfinite_positive (@Rounded.div binary64_range (Fin 0.01) (Fin 6.0)).
Proof.
  rewrite div_in_range by in_range. cbn. lra.
Qed.

Lemma C5_witness :
  Snonneg
    (@Rounded.Probability binary64_range
       (Condition
          (@Rounded.new_KinectObserver binary64_range (Fin 0.01) (Fin 0.003)
             (Fin 0.00142478) (Fin 1.0) (Fin 6.0) NaN false)
          (Fin 2) true)
       (Fin 1)).
Proof.
  apply (@C5_Probability_nonnegative binary64_range).
  - unfold valid_parameters. lra.
  - exact well_conditioned_example.
Defined.

(** A density that is not a number through [erf]: [model_sigma = 0] and
    [sigma_factor = 0] give [sigma = 0], and with the observation equal to
    the prediction the argument of [erf] is 0 / 0. *)
Lemma Probability_erf_nan_example :
  Probability
    (Condition
       (new_KinectObserver (Fin 0.01) (Fin 0) (Fin 0) (Fin 1.0) (Fin 6.0) NaN false)
       (Fin 1) true)
    (Fin 1) = NaN.
Proof.
  unfold Probability.
  cbn [Condition new_KinectObserver occlusion_ prediction_ tail_weight_ max_depth_
         model_sigma_ sigma_factor_ exponential_rate_ negb std.isinf].
  cbn [Sadd Ssub Smul Sneg].
  pose proof sqrt_2_bounds as H2.
  assert (Hlog : std.log (Fin 0.5) = Fin (ln 0.5)) by (apply log_Fin; lra).
  rewrite Hlog. cbn [Sneg]. rewrite (Sdiv_Fin (- ln 0.5) 1.0) by lra.
  cbn [Sadd Ssub Smul Sneg]. rewrite sqrt_Fin by lra. cbn [Smul].
  set (r := (- ln 0.5 / 1.0)%R).
  rewrite (Sdiv_zero_by_zero (1 + - (1) + r * (0 + 0 * 1 * 1) * (0 + 0 * 1 * 1))
             (sqrt 2 * (0 + 0 * 1 * 1))) by lra.
  cbn [std.erf Sadd Smul].
  destruct (Fin 0.01 / Fin 6.0)%S; reflexivity.
Qed.

(** C5, counterexample.  Six valid parameter sets and contexts at which
    the density is not a non-negative number.  In exact arithmetic: a
    negative density under occlusion with a negative predicted depth; NaN
    at noise scale zero without occlusion; NaN at noise scale zero under
    occlusion, through the argument of [erf].  In the arithmetic with
    overflow, with the default parameters: NaN under occlusion at
    predicted depth 1025; NaN under occlusion with an infinite prediction
    at observation 2^1023; NaN without occlusion at observation 2^600. *)
Lemma C5_counterexample :
  valid_parameters 0.01 0.003 0.00142478 1.0 6.0
  /\ (exists v : R,
        Probability
          (Condition
             (new_KinectObserver (Fin 0.01) (Fin 0.003) (Fin 0.00142478) (Fin 1.0)
                (Fin 6.0) NaN false)
             (Fin (-1)) true)
          (Fin (-1)) = Fin v
        /\ (v < 0)%R)
  /\ valid_parameters 0.01 0 0.00142478 1.0 6.0
  /\ Probability
       (Condition
          (new_KinectObserver (Fin 0.01) (Fin 0) (Fin 0.00142478) (Fin 1.0) (Fin 6.0)
             NaN false)
          (Fin 2) false)
       (Fin 0) = NaN
  /\ valid_parameters 0.01 0 0 1.0 6.0
  /\ Probability
       (Condition
          (new_KinectObserver (Fin 0.01) (Fin 0) (Fin 0) (Fin 1.0) (Fin 6.0) NaN false)
          (Fin 1) true)
       (Fin 1) = NaN
  /\ @Rounded.Probability binary64_range
       (Condition
          (@Rounded.new_KinectObserver binary64_range (Fin 0.01) (Fin 0.003)
             (Fin 0.00142478) (Fin 1.0) (Fin 6.0) NaN false)
          (Fin 1025) true)
       (Fin 1) = NaN
  /\ @Rounded.Probability binary64_range
       (Condition
          (@Rounded.new_KinectObserver binary64_range (Fin 0.01) (Fin 0.003)
             (Fin 0.00142478) (Fin 1.0) (Fin 6.0) NaN false)
          PInf true)
       (Fin (2 ^ 1023)) = NaN
  /\ @Rounded.Probability binary64_range
       (Condition
          (@Rounded.new_KinectObserver binary64_range (Fin 0.01) (Fin 0.003)
             (Fin 0.00142478) (Fin 1.0) (Fin 6.0) NaN false)
          (Fin 2) false)
       (Fin (2 ^ 600)) = NaN.
Proof.
  split; [unfold valid_parameters; lra | ].
  split; [exact Probability_negative_example | ].
  split; [unfold valid_parameters; lra | ].
  split; [exact Probability_nan_example | ].
  split; [unfold valid_parameters; lra | ].
  split; [exact Probability_erf_nan_example | ].
  split; [exact Probability_overflow_example | ].
  split; [exact Probability_occluded_infinite_overflow_example | ].
  exact Probability_visible_overflow_example.
Qed.

(* ================================================================= *)
(** ** Properties of RotaryTrackerBuilder *)

Section RotaryTrackerBuilderFacts.
Context `{TrackerInterface}.

(** The filter the loop builds for joint [i]. *)
Definition joint_filter_of (this : RotaryTrackerBuilder) (i : Z) : JointFilter :=
  new_JointFilter (transition_build this.(transition_builder_) i)
    (sensor_build this.(sensor_builder_) i).

Lemma create_joint_filters_map (this : RotaryTrackerBuilder) :
  create_joint_filters this =
  map (joint_filter_of this)
    (Zrange 0 (Z.to_nat (num_joints this.(kinematics_)))).
Proof.
  unfold create_joint_filters. cbv zeta.
  rewrite (for_loop_fold (Z.to_nat (num_joints (kinematics_ this))))
    by (f_equal; lia).
  apply (fold_left_snoc (joint_filter_of this)).
Qed.

(** C8.  [create_joint_filters] returns as many filters as the kinematics
    has joints, the filter at index [i] is built from
    [transition_builder->build(i)] and [sensor_builder->build(i)], and
    [build] hands exactly this vector, with the kinematics, to the
    tracker's constructor. *)
Theorem C8_one_filter_per_joint (this : RotaryTrackerBuilder) :
  (0 <= num_joints this.(kinematics_))%Z ->
  Z.of_nat (length (create_joint_filters this)) = num_joints this.(kinematics_)
  /\ (forall i : Z,
        (0 <= i < num_joints this.(kinematics_))%Z ->
        nth_error (create_joint_filters this) (Z.to_nat i) =
        Some (new_JointFilter (transition_build this.(transition_builder_) i)
                (sensor_build this.(sensor_builder_) i)))
  /\ build this = new_Tracker (create_joint_filters this) this.(kinematics_).
Proof.
  intros Hn. split; [ | split].
  - rewrite create_joint_filters_map, length_map, Zrange_length. lia.
  - intros i Hi.
    rewrite create_joint_filters_map, nth_error_map, Zrange_nth by lia.
    cbn. rewrite Z2Nat.id by lia. reflexivity.
  - reflexivity.
Qed.

End RotaryTrackerBuilderFacts.

(** A small instance on which the builder runs: a joint filter is the
    pair of the two models, and the models are tagged joint indices. *)
#[local] Instance pair_interface : TrackerInterface := {|
  Tracker := list (Z * Z) * Z;
  JointFilter := Z * Z;
  Transition := Z;
  Sensor := Z;
  KinematicsFromURDF := Z;
  FactorizedTransitionBuilder := Z;
  RotarySensorBuilder := Z;
  num_joints := fun k => k;
  transition_build := fun b i => (b + i)%Z;
  sensor_build := fun b i => (b + i)%Z;
  new_JointFilter := fun t s => (t, s);
  new_Tracker := fun fs k => (fs, k)
|}.

Definition three_joint_builder : @RotaryTrackerBuilder pair_interface :=
  @Build_RotaryTrackerBuilder pair_interface 3%Z 100%Z 200%Z.

Example create_joint_filters_three :
  create_joint_filters three_joint_builder
  = [(100, 200); (101, 201); (102, 202)]%Z.
Proof. reflexivity. Qed.

Lemma C8_witness :
  Z.of_nat (length (create_joint_filters three_joint_builder)) = 3%Z
  /\ (forall i : Z,
        (0 <= i < 3)%Z ->
        nth_error (create_joint_filters three_joint_builder) (Z.to_nat i) =
        Some ((100 + i)%Z, (200 + i)%Z))
  /\ build three_joint_builder = (create_joint_filters three_joint_builder, 3%Z).
Proof.
  apply (C8_one_filter_per_joint three_joint_builder).
  cbn. lia.
Defined.

(* ================================================================= *)
(** ** Properties of ArmRobotAnimator *)

Lemma list_update_length {A : Type} (l : list A) n a :
  length (list_update l n a) = length l.
Proof.
  revert n. induction l as [ | x l IH]; intros [ | n]; cbn; try reflexivity.
  rewrite IH. reflexivity.
Qed.

Lemma nth_error_list_update_eq {A : Type} (l : list A) n a :
  (n < length l)%nat -> nth_error (list_update l n a) n = Some a.
Proof.
  revert n. induction l as [ | x l IH]; intros [ | n] Hn; cbn in *; try lia.
  - reflexivity.
  - apply IH. lia.
Qed.

Lemma nth_error_list_update_neq {A : Type} (l : list A) n m a :
  n <> m -> nth_error (list_update l n a) m = nth_error l m.
Proof.
  revert n m. induction l as [ | x l IH]; intros [ | n] [ | m] Hnm; cbn;
    try reflexivity; try contradiction.
  apply IH. lia.
Qed.

Lemma vec_read_in_range (v : VectorXd) (i : Z) :
  (0 <= i < Z.of_nat (length v))%Z -> exists c, vec_read v i = Some c.
Proof.
  intros Hi. unfold vec_read. destruct (Z.leb_spec 0 i); [ | lia].
  destruct (nth_error v (Z.to_nat i)) as [c | ] eqn:E; [exists c; reflexivity | ].
  apply nth_error_None in E. lia.
Qed.

Lemma vec_write_in_range (v : VectorXd) (i : Z) (x : Scalar) :
  (0 <= i < Z.of_nat (length v))%Z ->
  vec_write v i x = Some (list_update v (Z.to_nat i) x).
Proof.
  intros Hi. unfold vec_write.
  destruct (Z.leb_spec 0 i); [ | lia]. destruct (Z.ltb_spec i (Z.of_nat (length v))); [ | lia].
  reflexivity.
Qed.

Lemma vec_read_update_eq (v : VectorXd) (i : Z) (x : Scalar) :
  (0 <= i < Z.of_nat (length v))%Z ->
  vec_read (list_update v (Z.to_nat i) x) i = Some x.
Proof.
  intros Hi. unfold vec_read. destruct (Z.leb_spec 0 i); [ | lia].
  apply nth_error_list_update_eq. lia.
Qed.

Lemma vec_read_update_neq (v : VectorXd) (i j : Z) (x : Scalar) :
  (0 <= i)%Z -> i <> j ->
  vec_read (list_update v (Z.to_nat i) x) j = vec_read v j.
Proof.
  intros Hi Hij. unfold vec_read. destruct (Z.leb_spec 0 j); [ | reflexivity].
  apply nth_error_list_update_neq. lia.
Qed.

Section AnimateFacts.
Local Open Scope scalar_scope.

Variables (t dt dilation : Scalar) (current next : ref) (h0 : store).

Let increment : Scalar := Fin 0.1 * dt / dilation * std.sin (t / dilation).

(** The store after the indices of [done] have been assigned, starting
    from [h0]. *)
Definition assigned (done : list Z) (h : store) : Prop :=
  (forall r, r <> next -> h r = h0 r)
  /\ length (h next) = length (h0 next)
  /\ (forall i, In i done ->
        exists c, vec_read (h0 current) i = Some c
                  /\ vec_read (h next) i = Some (c + increment))
  /\ (forall i, ~ In i done -> vec_read (h next) i = vec_read (h0 next) i).

Lemma assigned_start : assigned [] h0.
Proof.
  repeat split; try reflexivity. intros i [].
Qed.

Lemma assigned_same_members done done' h :
  (forall i, In i done <-> In i done') -> assigned done h -> assigned done' h.
Proof.
  intros E (Hr & Hlen & Hin & Hout). repeat split; try assumption.
  - intros i Hi. apply Hin, E, Hi.
  - intros i Hi. apply Hout. intros Hd. apply Hi, E, Hd.
Qed.

Lemma assign_next_step done h i :
  assigned done h ->
  ~ In i done ->
  (0 <= i < Z.of_nat (length (h0 current)))%Z ->
  (i < Z.of_nat (length (h0 next)))%Z ->
  exists h',
    assign_next t dt dilation current next i (Some h) = Some h'
    /\ assigned (i :: done) h'.
Proof.
  intros (Hr & Hlen & Hin & Hout) Hi Hc Hn.
  destruct (vec_read_in_range (h0 current) i Hc) as [c Hread0].
  assert (Hread : vec_read (h current) i = Some c).
  { destruct (Nat.eq_dec current next) as [E | E].
    - rewrite E, (Hout i Hi), <- E. exact Hread0.
    - rewrite (Hr current E). exact Hread0. }
  assert (Hn' : (0 <= i < Z.of_nat (length (h next)))%Z) by (rewrite Hlen; lia).
  unfold assign_next. rewrite Hread, (vec_write_in_range _ _ _ Hn').
  eexists. split; [reflexivity | ].
  unfold assigned, store_set. rewrite Nat.eqb_refl. repeat split.
  - intros r Hrn. destruct (Nat.eqb_spec r next); [contradiction | apply Hr, Hrn].
  - rewrite list_update_length. exact Hlen.
  - intros j [<- | Hj].
    + exists c. split; [exact Hread0 | ]. apply vec_read_update_eq, Hn'.
    + destruct (Hin j Hj) as (cj & Hj0 & Hj1). exists cj. split; [exact Hj0 | ].
      rewrite vec_read_update_neq; [exact Hj1 | lia | ].
      intros ->. contradiction.
  - intros j Hj. rewrite vec_read_update_neq; [ | lia | ].
    + apply Hout. intros Hd. apply Hj. right. exact Hd.
    + intros ->. apply Hj. left. reflexivity.
Qed.

Lemma assign_next_fold idx : forall done h,
  assigned done h ->
  NoDup idx ->
  (forall i, In i idx ->
     ~ In i done
     /\ (0 <= i < Z.of_nat (length (h0 current)))%Z
     /\ (i < Z.of_nat (length (h0 next)))%Z) ->
  exists h',
    fold_left (fun s k => assign_next t dt dilation current next k s) idx (Some h)
    = Some h'
    /\ assigned (idx ++ done) h'.
Proof.
  induction idx as [ | i idx IH]; intros done h Hinv Hnd Hidx.
  - exists h. split; [reflexivity | exact Hinv].
  - inversion Hnd as [ | ? ? Hi Hnd']; subst.
    destruct (Hidx i (or_introl eq_refl)) as (Hid & Hc & Hn).
    destruct (assign_next_step done h i Hinv Hid Hc Hn) as (h1 & Hstep & Hinv1).
    destruct (IH (i :: done) h1 Hinv1 Hnd') as (h' & Hfold & Hinv').
    { intros j Hj. destruct (Hidx j (or_intror Hj)) as (Hjd & Hjc & Hjn).
      repeat split; try lia.
      intros [<- | Hd]; [apply Hi, Hj | apply Hjd, Hd]. }
    exists h'. split.
    + cbn [fold_left]. rewrite Hstep. exact Hfold.
    + apply (assigned_same_members (idx ++ i :: done)); [ | exact Hinv'].
      intros j. cbn [app In]. rewrite !in_app_iff. cbn [In]. tauto.
Qed.

End AnimateFacts.

Lemma arm_index_list (i : Z) :
  In i (Zrange 6 7 ++ Zrange 21 7) <-> arm_index i.
Proof.
  unfold arm_index. cbn. split.
  - intros Hi. repeat (destruct Hi as [<- | Hi]; [lia | ]). contradiction.
  - intros Hi.
    assert (i = 6 \/ i = 7 \/ i = 8 \/ i = 9 \/ i = 10 \/ i = 11 \/ i = 12 \/
            i = 21 \/ i = 22 \/ i = 23 \/ i = 24 \/ i = 25 \/ i = 26 \/ i = 27)%Z
      as Hcases by lia.
    repeat (destruct Hcases as [-> | Hcases]; [tauto | ]). subst. tauto.
Qed.

Lemma arm_index_NoDup : NoDup (Zrange 6 7 ++ Zrange 21 7).
Proof.
  cbn. repeat (constructor; [cbn; intuition lia | ]). constructor.
Qed.

Section AnimateTheorem.
Local Open Scope scalar_scope.

(** C9.  When both vectors have the 28 components [animate] indexes, the
    call adds [dt] to the accumulated time [t_] and then sets, in [next],
    exactly the components 6..12 and 21..27, each to
    [current[i] + 0.1 * dt / dilation * sin (t_ / dilation)] with the
    updated [t_], so with one and the same increment for both arms; the
    other components of [next], its length, and every other vector of the
    store are unchanged.  [current] and [next] may be the same vector. *)
Theorem C9_animate_writes_arm_segments
  (this : ArmRobotAnimator) (h : store) (current next : ref)
  (dt dilation : Scalar) :
  (28 <= length (h current))%nat ->
  (28 <= length (h next))%nat ->
  let t := this.(t_) + dt in
  let increment := Fin 0.1 * dt / dilation * std.sin (t / dilation) in
  exists h' : store,
    animate this h current dt dilation next = Some ({| t_ := t |}, h')
    /\ (forall i : Z,
          arm_index i ->
          exists c : Scalar,
            vec_read (h current) i = Some c
            /\ vec_read (h' next) i = Some (c + increment))
    /\ (forall i : Z,
          ~ arm_index i -> vec_read (h' next) i = vec_read (h next) i)
    /\ length (h' next) = length (h next)
    /\ (forall r : ref, r <> next -> h' r = h r).
Proof.
  intros Hc Hn t increment.
  destruct (assign_next_fold t dt dilation current next h
              (Zrange 6 7 ++ Zrange 21 7) [] h
              (assigned_start t dt dilation current next h) arm_index_NoDup)
    as (h' & Hfold & (Hr & Hlen & Hin & Hout)).
  { intros i Hi. apply arm_index_list in Hi. unfold arm_index in Hi.
    split; [intros [] | lia]. }
  exists h'. split; [ | repeat split].
  - unfold animate. cbv zeta. cbn [t_]. fold t.
    rewrite (for_loop_fold 7 6 (6 + 7)) by reflexivity.
    rewrite (for_loop_fold 7 (6 + 7 + 8) (6 + 2 * 7 + 8)) by reflexivity.
    rewrite <- fold_left_app.
    change (6 + 7 + 8)%Z with 21%Z. rewrite Hfold. reflexivity.
  - intros i Hi. apply Hin. rewrite app_nil_r. apply arm_index_list, Hi.
  - intros i Hi. apply Hout. rewrite app_nil_r. intros Hd. apply Hi, arm_index_list, Hd.
  - exact Hlen.
  - exact Hr.
Qed.

Lemma C9_witness :
  let h : store := fun _ => repeat (Fin 1) 28 in
  let increment := Fin 0.1 * Fin 1 / Fin 2 * std.sin ((Fin 0 + Fin 1) / Fin 2) in
  exists h' : store,
    animate new_ArmRobotAnimator h 0%nat (Fin 1) (Fin 2) 1%nat
    = Some ({| t_ := Fin 0 + Fin 1 |}, h')
    /\ (forall i : Z,
          arm_index i ->
          exists c : Scalar,
            vec_read (h 0%nat) i = Some c
            /\ vec_read (h' 1%nat) i = Some (c + increment))
    /\ (forall i : Z,
          ~ arm_index i -> vec_read (h' 1%nat) i = vec_read (h 1%nat) i)
    /\ length (h' 1%nat) = length (h 1%nat)
    /\ (forall r : ref, r <> 1%nat -> h' r = h r).
Proof.
  cbv zeta.
  apply (C9_animate_writes_arm_segments new_ArmRobotAnimator
           (fun _ => repeat (Fin 1) 28) 0%nat 1%nat (Fin 1) (Fin 2)).
  - rewrite repeat_length. lia.
  - rewrite repeat_length. lia.
Defined.

End AnimateTheorem.

(* ================================================================= *)
(** ** Further properties of KinectObserver *)

(** The arguments of the last [Condition] call of a sequence, if any. *)
Fixpoint last_condition (cs : list call) : option (Scalar * bool) :=
  match cs with
  | [] => None
  | c :: cs' =>
      match last_condition cs' with
      | Some ctx => Some ctx
      | None =>
          match c with
          | Call_Condition prediction occlusion => Some (prediction, occlusion)
          | _ => None
          end
      end
  end.

Section KinectObserverFurther.
Local Open Scope scalar_scope.

Ltac real_eq := repeat first [ reflexivity | ring | progress f_equal ].

Lemma Sadd_NaN_r x : x + NaN = NaN.
Proof. destruct x; reflexivity. Qed.

Lemma Smul_NaN_r x : x * NaN = NaN.
Proof. destruct x; reflexivity. Qed.

Lemma Sdiv_NaN_r x : x / NaN = NaN.
Proof. destruct x; reflexivity. Qed.

(** X1.  The five parameters are [const] members: no sequence of calls changes
    them. *)
Theorem run_keeps_parameters (cs : list call) : forall this : KinectObserver,
  let this' := fst (run this cs) in
  this'.(exponential_rate_) = this.(exponential_rate_)
  /\ this'.(tail_weight_) = this.(tail_weight_)
  /\ this'.(model_sigma_) = this.(model_sigma_)
  /\ this'.(sigma_factor_) = this.(sigma_factor_)
  /\ this'.(max_depth_) = this.(max_depth_).
Proof.
  induction cs as [ | c cs IH]; intros this; cbv zeta.
  - repeat split.
  - cbn [run]. destruct (invoke this c) as [this1 r] eqn:E.
    specialize (IH this1). cbv zeta in IH.
    destruct (run this1 cs) as [this2 rs]. cbn [fst] in *.
    assert (H1 : this1.(exponential_rate_) = this.(exponential_rate_)
                 /\ this1.(tail_weight_) = this.(tail_weight_)
                 /\ this1.(model_sigma_) = this.(model_sigma_)
                 /\ this1.(sigma_factor_) = this.(sigma_factor_)
                 /\ this1.(max_depth_) = this.(max_depth_)).
    { destruct c; cbn [invoke] in E; inversion E; subst; repeat split. }
    destruct IH as (? & ? & ? & ? & ?). destruct H1 as (? & ? & ? & ? & ?).
    repeat split; congruence.
Qed.

(** X2.  After any sequence of calls the stored context is the one of the last
    [Condition] call, whatever queries were made before or after it; with
    no [Condition] call it is the context the object started with. *)
Theorem run_context_is_last_condition (cs : list call) :
  forall this : KinectObserver,
  let this' := fst (run this cs) in
  match last_condition cs with
  | Some (prediction, occlusion) =>
      this'.(prediction_) = prediction /\ this'.(occlusion_) = occlusion
  | None =>
      this'.(prediction_) = this.(prediction_)
      /\ this'.(occlusion_) = this.(occlusion_)
  end.
Proof.
  induction cs as [ | c cs IH]; intros this; cbv zeta.
  - split; reflexivity.
  - cbn [run last_condition]. destruct (invoke this c) as [this1 r] eqn:E.
    specialize (IH this1). cbv zeta in IH.
    destruct (run this1 cs) as [this2 rs]. cbn [fst] in *.
    destruct (last_condition cs) as [[p o] | ]; [exact IH | ].
    destruct IH as [Hp Ho]. rewrite Hp, Ho.
    destruct c; cbn [invoke] in E; inversion E; subst; split; reflexivity.
Qed.

(** X3.  A NaN prediction is not infinite, so [Probability] takes the
    arithmetic branch and the density is NaN, for every parameter set,
    observation and occlusion flag. *)
Theorem Probability_nan_prediction
  (this : KinectObserver) (occlusion : bool) (obs : Scalar) :
  Probability (Condition this NaN occlusion) obs = NaN.
Proof.
  unfold Probability.
  cbn [Condition occlusion_ prediction_ tail_weight_ max_depth_ model_sigma_
         sigma_factor_ exponential_rate_ std.isinf].
  destruct occlusion; cbn [negb];
    repeat (rewrite ?Smul_NaN_r, ?Sadd_NaN_r, ?Sdiv_NaN_r;
            cbn [Ssub Sadd Sneg Smul Sdiv std.exp std.erf std.pow]);
    reflexivity.
Qed.

Lemma div_Fin_idempotent {arithmetic : DoubleArithmetic} a b t :
  Rounded.div (Fin a) (Fin b) = Fin t -> round t = Fin t.
Proof.
  cbn. destruct (Req_dec_T b 0).
  - destruct (Req_dec_T a 0); discriminate.
  - apply round_idempotent.
Qed.

Lemma add_at_least {arithmetic : DoubleArithmetic} t g :
  round t = Fin t -> (0 <= t)%R -> Snonneg g -> Sat_least t (Rounded.add (Fin t) g).
Proof.
  intros Ht Ht0 Hg. destruct g as [g0 | s | ]; cbn in *; [ | exact Hg | contradiction].
  destruct (round (t + g0)) as [v | s | ] eqn:E; cbn.
  - apply (round_monotone t (t + g0) v Ht); [lra | exact E].
  - pose proof (round_nonneg (t + g0) ltac:(lra)) as H. rewrite E in H. exact H.
  - exact (round_not_NaN _ E).
Qed.

(** X4.  The tail term is a floor.  For valid parameters, in a
    well-conditioned call in which the tail term [tail_weight / max_depth]
    is computed as a positive finite number, the density is at least that
    number, as doubles compare; so [LogProbability] returns a finite number
    or +infinity, never NaN and never -infinity.  This holds in every
    arithmetic that rounds as described above. *)
Theorem Probability_tail_floor {arithmetic : DoubleArithmetic}
  (tw ms sf hl md : R) (u : Scalar) (b : bool)
  (prediction : Scalar) (occlusion : bool) (obs : R) :
  valid_parameters tw ms sf hl md ->
  Rounded.well_conditioned
    (Condition
       (Rounded.new_KinectObserver (Fin tw) (Fin ms) (Fin sf) (Fin hl) (Fin md) u b)
       prediction occlusion)
    (Fin obs) ->
  Sfinite_positive (Rounded.div (Fin tw) (Fin md)) ->
  exists t : R,
    Rounded.div (Fin tw) (Fin md) = Fin t /\ (0 < t)%R
    /\ Sat_least t
         (Rounded.Probability
            (Condition
               (Rounded.new_KinectObserver (Fin tw) (Fin ms) (Fin sf) (Fin hl) (Fin md)
                  u b)
               prediction occlusion)
            (Fin obs))
    /\ Sbounded_below
         (Rounded.LogProbability
            (Condition
               (Rounded.new_KinectObserver (Fin tw) (Fin ms) (Fin sf) (Fin hl) (Fin md)
                  u b)
               prediction occlusion)
            (Fin obs)).
Proof.
  intros (Htw & Hms & Hsf & Hhl & Hmd) Hwc Htail.
  destruct (Sfinite_positive_inv _ Htail) as (t & Ht & Ht0).
  exists t. split; [exact Ht | ]. split; [exact Ht0 | ].
  pose proof (div_Fin_idempotent _ _ _ Ht) as Hround.
  set (this := Condition _ prediction occlusion) in *.
  assert (HP : Sat_least t (Rounded.Probability this (Fin obs))).
  { destruct (Probability_tail_plus this tw obs eq_refl ltac:(lra)) as [E | (g & Hg & E)].
    - cbn. apply exponential_rate_nonneg, Hhl.
    - exact Hwc.
    - rewrite E. unfold Rounded.tail_term. cbn [this Condition tail_weight_ max_depth_
        Rounded.new_KinectObserver]. rewrite Ht. cbn. lra.
    - rewrite E. unfold Rounded.tail_term. cbn [this Condition tail_weight_ max_depth_
        Rounded.new_KinectObserver]. rewrite Ht.
      apply add_at_least; [exact Hround | lra | exact Hg]. }
  split; [exact HP | ].
  unfold Rounded.LogProbability.
  destruct (Rounded.Probability this (Fin obs)) as [v | s | ]; cbn in HP |- *.
  - destruct (Rlt_dec 0 v) as [Hv | Hv]; [ | lra].
    destruct (log_d_finite v Hv) as [l ->]. exact I.
  - subst s. reflexivity.
  - contradiction.
Qed.

Lemma Probability_tail_floor_witness :
  exists t : R,
    @Rounded.div binary64_range (Fin 0.01) (Fin 6.0) = Fin t /\ (0 < t)%R
    /\ Sat_least t
         (@Rounded.Probability binary64_range
            (Condition
               (@Rounded.new_KinectObserver binary64_range (Fin 0.01) (Fin 0.003)
                  (Fin 0.00142478) (Fin 1.0) (Fin 6.0) NaN false)
               (Fin 2) true)
            (Fin 1))
    /\ Sbounded_below
         (@Rounded.LogProbability binary64_range
            (Condition
               (@Rounded.new_KinectObserver binary64_range (Fin 0.01) (Fin 0.003)
                  (Fin 0.00142478) (Fin 1.0) (Fin 6.0) NaN false)
               (Fin 2) true)
            (Fin 1)).
Proof.
  apply (@Probability_tail_floor binary64_range).
  - unfold valid_parameters. lra.
  - exact well_conditioned_example.
  - exact tail_term_example.
Defined.

Lemma exp_le_mono x y : (x <= y)%R -> (Rtrigo_def.exp x <= Rtrigo_def.exp y)%R.
Proof.
  intros [Hlt | ->]; [left; apply exp_increasing, Hlt | right; reflexivity].
Qed.

(** An observer with a constant noise scale ([sigma_factor = 0]). *)
Definition constant_noise_observer (tw ms hl md : R) : KinectObserver :=
  new_KinectObserver (Fin tw) (Fin ms) (Fin 0) (Fin hl) (Fin md) NaN false.

(** X5.  Not occluded, finite prediction, constant noise scale: the density is
    largest when the observation equals the prediction, where it is
    [tail_weight / max_depth + (1 - tail_weight) / (sqrt (2 pi) sigma)]. *)
Theorem Probability_visible_peak
  (this : KinectObserver) (rate tw ms md pd obs : R) :
  finite_parameters this rate tw ms 0 md ->
  md <> 0%R -> (0 < ms)%R -> (tw <= 1)%R ->
  exists v vmax : R,
    Probability (Condition this (Fin pd) false) (Fin obs) = Fin v
    /\ Probability (Condition this (Fin pd) false) (Fin pd) = Fin vmax
    /\ (v <= vmax)%R
    /\ vmax = (tw / md + (1 - tw) / (sqrt (2 * PI) * ms))%R.
Proof.
  intros Hfin Hmd Hms Htw.
  pose proof sqrt_2PI_pos as Hpi.
  assert (Hs : forall o, sigma_of ms 0 o = ms) by (intros o; unfold sigma_of; ring).
  do 2 eexists. split; [ | split; [ | split]].
  - apply (Probability_visible_finite_real this rate tw ms 0 md); try assumption.
    rewrite Hs. lra.
  - apply (Probability_visible_finite_real this rate tw ms 0 md); try assumption.
    rewrite Hs. lra.
  - rewrite !Hs. apply Rplus_le_compat_l.
    apply Rmult_le_compat_r.
    + left. apply Rinv_0_lt_compat. apply Rmult_lt_0_compat; lra.
    + apply Rmult_le_compat_l; [lra | ].
      apply exp_le_mono.
      assert (0 <= (pd - obs) ^ 2 / (2 * ms ^ 2))%R.
      { pose proof (pow2_ge_0 (pd - obs)). pose proof (pow_lt ms 2 Hms).
        apply Rmult_le_pos; [lra | ]. left. apply Rinv_0_lt_compat. lra. }
      replace ((pd - pd) ^ 2 / (2 * ms ^ 2))%R with 0%R by (unfold Rdiv; ring).
      lra.
  - rewrite Hs.
    replace (- ((pd - pd) ^ 2 / (2 * ms ^ 2)))%R with 0%R by (unfold Rdiv; ring).
    rewrite exp_0. unfold Rdiv. ring.
Qed.

Lemma constant_noise_observer_finite tw ms hl md :
  hl <> 0%R ->
  finite_parameters (constant_noise_observer tw ms hl md) (- ln 0.5 / hl) tw ms 0 md.
Proof. intros Hhl. apply new_KinectObserver_finite, Hhl. Qed.

Lemma Probability_visible_peak_witness :
  exists v vmax : R,
    Probability (Condition (constant_noise_observer 0.01 0.003 1 6) (Fin 2) false)
      (Fin 1) = Fin v
    /\ Probability (Condition (constant_noise_observer 0.01 0.003 1 6) (Fin 2) false)
         (Fin 2) = Fin vmax
    /\ (v <= vmax)%R
    /\ vmax = (0.01 / 6 + (1 - 0.01) / (sqrt (2 * PI) * 0.003))%R.
Proof.
  apply (Probability_visible_peak (constant_noise_observer 0.01 0.003 1 6)
           (- ln 0.5 / 1) 0.01 0.003 6 2 1).
  - apply constant_noise_observer_finite. lra.
  - lra.
  - lra.
  - lra.
Defined.

(** X6.  Not occluded, finite prediction, constant noise scale: the density is
    symmetric about the prediction. *)
Theorem Probability_visible_symmetric
  (this : KinectObserver) (rate tw ms md pd d : R) :
  finite_parameters this rate tw ms 0 md ->
  md <> 0%R -> ms <> 0%R ->
  Probability (Condition this (Fin pd) false) (Fin (pd + d)) =
  Probability (Condition this (Fin pd) false) (Fin (pd - d)).
Proof.
  intros Hfin Hmd Hms.
  assert (Hs : forall o, sigma_of ms 0 o = ms) by (intros o; unfold sigma_of; ring).
  rewrite !(Probability_visible_finite_real this rate tw ms 0 md)
    by (try assumption; rewrite Hs; assumption).
  rewrite !Hs. real_eq.
Qed.

Lemma Probability_visible_symmetric_witness :
  Probability (Condition (constant_noise_observer 0.01 0.003 1 6) (Fin 2) false)
    (Fin (2 + 1)) =
  Probability (Condition (constant_noise_observer 0.01 0.003 1 6) (Fin 2) false)
    (Fin (2 - 1)).
Proof.
  apply (Probability_visible_symmetric (constant_noise_observer 0.01 0.003 1 6)
           (- ln 0.5 / 1) 0.01 0.003 6 2 1).
  - apply constant_noise_observer_finite. lra.
  - lra.
  - lra.
Defined.

(** X7.  With an infinite prediction the density still depends on the
    occlusion flag: under occlusion it is larger, by the exponential
    term.  (The comment at the head of [Probability] notes that it should
    not depend on visibility there.) *)
Theorem Probability_infinite_depends_on_occlusion
  (this : KinectObserver) (rate tw ms sf md : R) (negative : bool) (obs : R) :
  finite_parameters this rate tw ms sf md ->
  md <> 0%R -> (0 < rate)%R -> (tw < 1)%R ->
  exists visible occluded : R,
    Probability (Condition this (Inf negative) false) (Fin obs) = Fin visible
    /\ Probability (Condition this (Inf negative) true) (Fin obs) = Fin occluded
    /\ (visible < occluded)%R.
Proof.
  intros Hfin Hmd Hrate Htw. do 2 eexists. split; [ | split].
  - apply (Probability_visible_infinite_real this rate tw ms sf md); assumption.
  - apply (Probability_occluded_infinite_real this rate tw ms sf md); assumption.
  - match goal with
    | |- (_ < _ + ?a * ?r * Rtrigo_def.exp ?x)%R =>
        pose proof (exp_pos x) as Hx;
        assert (0 < a * r * Rtrigo_def.exp x)%R
    end.
    { repeat apply Rmult_lt_0_compat; lra. }
    lra.
Qed.

Lemma Probability_infinite_depends_on_occlusion_witness :
  exists visible occluded : R,
    Probability (Condition (default_observer NaN false) PInf false) (Fin 1)
    = Fin visible
    /\ Probability (Condition (default_observer NaN false) PInf true) (Fin 1)
       = Fin occluded
    /\ (visible < occluded)%R.
Proof.
  apply (Probability_infinite_depends_on_occlusion (default_observer NaN false)
           (- ln 0.5 / 1.0) 0.01 0.003 0.00142478 6.0 false 1).
  - apply default_observer_finite.
  - lra.
  - apply exponential_rate_pos. lra.
  - lra.
Defined.

(** X8.  Occluded, infinite prediction, constant noise scale: moving the
    observation one half-life depth further halves the part of the density
    above the tail term.  This is the sense in which the constructor
    derives the rate from the half-life depth. *)
Theorem Probability_occluded_halves_per_half_life
  (tw ms hl md : R) (negative : bool) (obs : R) :
  (0 < hl)%R -> md <> 0%R ->
  let this := Condition (constant_noise_observer tw ms hl md) (Inf negative) true in
  exists v v' : R,
    Probability this (Fin obs) = Fin v
    /\ Probability this (Fin (obs + hl)) = Fin v'
    /\ (v' - tw / md = (v - tw / md) / 2)%R.
Proof.
  intros Hhl Hmd this.
  assert (Hfin : finite_parameters (constant_noise_observer tw ms hl md)
                   (- ln 0.5 / hl) tw ms 0 md).
  { apply constant_noise_observer_finite. lra. }
  assert (Hs : forall o, sigma_of ms 0 o = ms) by (intros o; unfold sigma_of; ring).
  do 2 eexists. split; [ | split].
  - apply (Probability_occluded_infinite_real _ _ _ _ _ _ _ _ Hfin Hmd).
  - apply (Probability_occluded_infinite_real _ _ _ _ _ _ _ _ Hfin Hmd).
  - rewrite !Hs. set (rate := (- ln 0.5 / hl)%R).
    assert (Hh : ln 0.5 = (- (rate * hl))%R) by (unfold rate; field; lra).
    clearbody rate.
    replace (0.5 * rate * (rate * ms ^ 2 - 2 * (obs + hl)))%R
      with (0.5 * rate * (rate * ms ^ 2 - 2 * obs) + ln 0.5)%R
      by (rewrite Hh; lra).
    rewrite exp_plus, exp_ln by lra. lra.
Qed.

Lemma Probability_occluded_halves_per_half_life_witness :
  exists v v' : R,
    Probability (Condition (constant_noise_observer 0.01 0.003 1 6) PInf true)
      (Fin 1) = Fin v
    /\ Probability (Condition (constant_noise_observer 0.01 0.003 1 6) PInf true)
         (Fin (1 + 1)) = Fin v'
    /\ (v' - 0.01 / 6 = (v - 0.01 / 6) / 2)%R.
Proof.
  apply (Probability_occluded_halves_per_half_life 0.01 0.003 1 6 false 1); lra.
Defined.

(** X9.  Occluded, infinite prediction, constant noise scale: the density does
    not increase with the observed depth. *)
Theorem Probability_occluded_infinite_decreasing
  (this : KinectObserver) (rate tw ms md : R) (negative : bool) (obs obs' : R) :
  finite_parameters this rate tw ms 0 md ->
  md <> 0%R -> (0 <= rate)%R -> (tw <= 1)%R ->
  (obs <= obs')%R ->
  exists v v' : R,
    Probability (Condition this (Inf negative) true) (Fin obs) = Fin v
    /\ Probability (Condition this (Inf negative) true) (Fin obs') = Fin v'
    /\ (v' <= v)%R.
Proof.
  intros Hfin Hmd Hrate Htw Hobs.
  assert (Hs : forall o, sigma_of ms 0 o = ms) by (intros o; unfold sigma_of; ring).
  do 2 eexists. split; [ | split].
  - apply (Probability_occluded_infinite_real _ _ _ _ _ _ _ _ Hfin Hmd).
  - apply (Probability_occluded_infinite_real _ _ _ _ _ _ _ _ Hfin Hmd).
  - rewrite !Hs. apply Rplus_le_compat_l.
    apply Rmult_le_compat_l; [apply Rmult_le_pos; lra | ].
    apply exp_le_mono. nra.
Qed.

Lemma Probability_occluded_infinite_decreasing_witness :
  exists v v' : R,
    Probability (Condition (constant_noise_observer 0.01 0.003 1 6) PInf true)
      (Fin 1) = Fin v
    /\ Probability (Condition (constant_noise_observer 0.01 0.003 1 6) PInf true)
         (Fin 3) = Fin v'
    /\ (v' <= v)%R.
Proof.
  apply (Probability_occluded_infinite_decreasing
           (constant_noise_observer 0.01 0.003 1 6) (- ln 0.5 / 1) 0.01 0.003 6
           false 1 3).
  - apply constant_noise_observer_finite. lra.
  - lra.
  - left. apply exponential_rate_pos. lra.
  - lra.
  - lra.
Defined.

(** X10.  Not occluded, finite prediction, constant noise scale: far from the
    prediction the density comes down to the tail term.  For every
    margin there is a distance beyond which the density exceeds
    [tail_weight / max_depth] by less than the margin. *)
Theorem Probability_visible_far_field
  (this : KinectObserver) (rate tw ms md pd eps : R) :
  finite_parameters this rate tw ms 0 md ->
  md <> 0%R -> (0 < ms)%R -> (tw <= 1)%R -> (0 < eps)%R ->
  exists D : R,
    forall obs : R,
      (D <= Rabs (obs - pd))%R ->
      exists v : R,
        Probability (Condition this (Fin pd) false) (Fin obs) = Fin v
        /\ (tw / md <= v < tw / md + eps)%R.
Proof.
  intros Hfin Hmd Hms Htw Heps.
  pose proof sqrt_2PI_pos as Hpi.
  assert (Hs : forall o, sigma_of ms 0 o = ms) by (intros o; unfold sigma_of; ring).
  set (K := ((1 - tw) / (sqrt (2 * PI) * ms))%R).
  assert (Hden : (0 < sqrt (2 * PI) * ms)%R) by (apply Rmult_lt_0_compat; lra).
  assert (HK : (0 <= K)%R).
  { unfold K. apply Rmult_le_pos; [lra | left; apply Rinv_0_lt_compat, Hden]. }
  assert (Hm2 : (0 < 2 * ms ^ 2)%R) by (pose proof (pow_lt ms 2 Hms); lra).
  exists (1 + 2 * ms ^ 2 * K / eps)%R. intros obs Hfar.
  eexists. split.
  - apply (Probability_visible_finite_real this rate tw ms 0 md); try assumption.
    rewrite Hs. lra.
  - rewrite !Hs.
    set (x := ((pd - obs) ^ 2 / (2 * ms ^ 2))%R).
    replace ((1 - tw) * Rtrigo_def.exp (- x) / (sqrt (2 * PI) * ms))%R
      with (K * Rtrigo_def.exp (- x))%R by (unfold K; field; lra).
    assert (Hq : (0 <= 2 * ms ^ 2 * K / eps)%R).
    { apply Rmult_le_pos; [apply Rmult_le_pos; lra | ].
      left. apply Rinv_0_lt_compat, Heps. }
    assert (Hx : (K / eps < x)%R).
    { unfold x. rewrite <- (pow2_abs (pd - obs)), (Rabs_minus_sym pd obs).
      set (A := Rabs (obs - pd)) in *.
      assert (HA : (1 + 2 * ms ^ 2 * K / eps <= A ^ 2)%R) by nra.
      apply Rmult_lt_reg_r with (2 * ms ^ 2)%R; [exact Hm2 | ].
      replace (A ^ 2 / (2 * ms ^ 2) * (2 * ms ^ 2))%R with (A ^ 2)%R by (field; lra).
      replace (K / eps * (2 * ms ^ 2))%R with (2 * ms ^ 2 * K / eps)%R
        by (field; lra).
      lra. }
    assert (Hx0 : (0 <= K / eps)%R).
    { apply Rmult_le_pos; [exact HK | left; apply Rinv_0_lt_compat, Heps]. }
    pose proof (exp_pos (- x)) as Hpos.
    assert (Hexp : (Rtrigo_def.exp (- x) <= / (1 + x))%R).
    { rewrite exp_Ropp. apply Rinv_le_contravar; [lra | apply exp_ineq1_le]. }
    assert (Hinv : (K * / (1 + x) < eps)%R).
    { apply Rmult_lt_reg_r with (1 + x)%R; [lra | ].
      rewrite Rmult_assoc, Rinv_l by lra.
      assert (K < eps * x)%R.
      { apply Rmult_lt_reg_r with (/ eps)%R; [apply Rinv_0_lt_compat, Heps | ].
        replace (eps * x * / eps)%R with x by (field; lra).
        exact Hx. }
      lra. }
    assert (K * Rtrigo_def.exp (- x) <= K * / (1 + x))%R
      by (apply Rmult_le_compat_l; assumption).
    assert (0 <= K * Rtrigo_def.exp (- x))%R by (apply Rmult_le_pos; lra).
    lra.
Qed.

Lemma Probability_visible_far_field_witness :
  exists D : R,
    forall obs : R,
      (D <= Rabs (obs - 2))%R ->
      exists v : R,
        Probability
          (Condition (constant_noise_observer 0.01 0.003 1 6) (Fin 2) false)
          (Fin obs) = Fin v
        /\ (0.01 / 6 <= v < 0.01 / 6 + 0.001)%R.
Proof.
  apply (Probability_visible_far_field (constant_noise_observer 0.01 0.003 1 6)
           (- ln 0.5 / 1) 0.01 0.003 6 2 0.001).
  - apply constant_noise_observer_finite. lra.
  - lra.
  - lra.
  - lra.
  - lra.
Defined.

(** X11.  An infinite half-life depth is accepted: the rate is then zero, the
    occlusion term vanishes, and with an infinite prediction the density
    under occlusion equals the density without it. *)
Theorem infinite_half_life_depth
  (tw ms sf md : R) (s : bool) (u : Scalar) (b : bool)
  (negative : bool) (obs : R) :
  md <> 0%R ->
  let this := new_KinectObserver (Fin tw) (Fin ms) (Fin sf) (Inf s) (Fin md) u b in
  this.(exponential_rate_) = Fin 0
  /\ Probability (Condition this (Inf negative) true) (Fin obs) = Fin (tw / md)
  /\ Probability (Condition this (Inf negative) true) (Fin obs)
     = Probability (Condition this (Inf negative) false) (Fin obs).
Proof.
  intros Hmd this.
  assert (Hrate : this.(exponential_rate_) = Fin 0).
  { subst this. cbn [new_KinectObserver exponential_rate_].
    rewrite log_Fin by lra. reflexivity. }
  assert (Hfin : finite_parameters this 0 tw ms sf md).
  { unfold finite_parameters. repeat split. exact Hrate. }
  assert (Hocc : Probability (Condition this (Inf negative) true) (Fin obs)
                 = Fin (tw / md)).
  { rewrite (Probability_occluded_infinite_real this 0 tw ms sf md) by assumption.
    f_equal. ring. }
  split; [exact Hrate | ]. split; [exact Hocc | ].
  rewrite Hocc. symmetry.
  apply (Probability_visible_infinite_real this 0 tw ms sf md); assumption.
Qed.

Lemma infinite_half_life_depth_witness :
  let this :=
    new_KinectObserver (Fin 0.01) (Fin 0.003) (Fin 0.00142478) PInf (Fin 6)
      NaN false in
  this.(exponential_rate_) = Fin 0
  /\ Probability (Condition this PInf true) (Fin 1) = Fin (0.01 / 6)
  /\ Probability (Condition this PInf true) (Fin 1)
     = Probability (Condition this PInf false) (Fin 1).
Proof.
  cbv zeta.
  apply (infinite_half_life_depth 0.01 0.003 0.00142478 6 false NaN false false 1).
  lra.
Defined.

(** A Gaussian factor is small far from its mean. *)
Lemma gauss_factor_small (K s eps : R) :
  (0 <= K)%R -> (0 < s)%R -> (0 < eps)%R ->
  exists D : R,
    forall d : R,
      (D <= Rabs d)%R ->
      (0 <= K * Rtrigo_def.exp (- (d ^ 2 / (2 * s ^ 2))) < eps)%R.
Proof.
  intros HK Hs Heps.
  assert (Hm2 : (0 < 2 * s ^ 2)%R) by (pose proof (pow_lt s 2 Hs); lra).
  exists (1 + 2 * s ^ 2 * K / eps)%R. intros d Hfar.
  set (x := (d ^ 2 / (2 * s ^ 2))%R).
  assert (Hq : (0 <= 2 * s ^ 2 * K / eps)%R).
  { apply Rmult_le_pos; [apply Rmult_le_pos; lra | ].
    left. apply Rinv_0_lt_compat, Heps. }
  assert (Hx : (K / eps < x)%R).
  { unfold x. rewrite <- (pow2_abs d).
    set (A := Rabs d) in *.
    assert (HA : (1 + 2 * s ^ 2 * K / eps <= A ^ 2)%R) by nra.
    apply Rmult_lt_reg_r with (2 * s ^ 2)%R; [exact Hm2 | ].
    replace (A ^ 2 / (2 * s ^ 2) * (2 * s ^ 2))%R with (A ^ 2)%R by (field; lra).
    replace (K / eps * (2 * s ^ 2))%R with (2 * s ^ 2 * K / eps)%R by (field; lra).
    lra. }
  assert (Hx0 : (0 <= K / eps)%R).
  { apply Rmult_le_pos; [exact HK | left; apply Rinv_0_lt_compat, Heps]. }
  pose proof (exp_pos (- x)) as Hpos.
  assert (Hexp : (Rtrigo_def.exp (- x) <= / (1 + x))%R).
  { rewrite exp_Ropp. apply Rinv_le_contravar; [lra | apply exp_ineq1_le]. }
  assert (Hinv : (K * / (1 + x) < eps)%R).
  { apply Rmult_lt_reg_r with (1 + x)%R; [lra | ].
    rewrite Rmult_assoc, Rinv_l by lra.
    assert (K < eps * x)%R.
    { apply Rmult_lt_reg_r with (/ eps)%R; [apply Rinv_0_lt_compat, Heps | ].
      replace (eps * x * / eps)%R with x by (field; lra).
      exact Hx. }
    lra. }
  assert (K * Rtrigo_def.exp (- x) <= K * / (1 + x))%R
    by (apply Rmult_le_compat_l; assumption).
  assert (0 <= K * Rtrigo_def.exp (- x))%R by (apply Rmult_le_pos; lra).
  lra.
Qed.

(** X12.  Not occluded: the value returned for an infinite prediction is the
    limit of the values for finite predictions, as the comment in the
    source says.  For every margin, every finite prediction far enough
    from the observation gives a density within the margin of the one for
    the infinite prediction. *)
Theorem Probability_visible_infinite_is_limit
  (this : KinectObserver) (rate tw ms sf md obs eps : R) :
  finite_parameters this rate tw ms sf md ->
  md <> 0%R -> (0 < ms + sf * obs ^ 2)%R -> (tw <= 1)%R -> (0 < eps)%R ->
  exists D : R,
    forall pd : R,
      (D <= Rabs (pd - obs))%R ->
      exists v vinf : R,
        Probability (Condition this (Fin pd) false) (Fin obs) = Fin v
        /\ Probability (Condition this PInf false) (Fin obs) = Fin vinf
        /\ (Rabs (v - vinf) < eps)%R.
Proof.
  intros Hfin Hmd Hsigma Htw Heps.
  pose proof sqrt_2PI_pos as Hpi.
  set (sg := (ms + sf * obs ^ 2)%R) in *.
  assert (Hden : (0 < sqrt (2 * PI) * sg)%R) by (apply Rmult_lt_0_compat; lra).
  set (K := ((1 - tw) / (sqrt (2 * PI) * sg))%R).
  assert (HK : (0 <= K)%R).
  { unfold K. apply Rmult_le_pos; [lra | left; apply Rinv_0_lt_compat, Hden]. }
  destruct (gauss_factor_small K sg eps HK Hsigma Heps) as [D HD].
  exists D. intros pd Hfar. specialize (HD (pd - obs)%R Hfar).
  do 2 eexists. split; [ | split].
  - apply (Probability_visible_finite_real this rate tw ms sf md); try assumption.
    unfold sigma_of. fold sg. lra.
  - apply (Probability_visible_infinite_real this rate tw ms sf md); assumption.
  - unfold sigma_of. fold sg.
    match goal with
    | |- (Rabs (?t + ?g - ?t) < _)%R =>
        replace (t + g - t)%R
          with (K * Rtrigo_def.exp (- ((pd - obs) ^ 2 / (2 * sg ^ 2))))%R
          by (unfold K; field; lra)
    end.
    rewrite Rabs_pos_eq; lra.
Qed.

Lemma Probability_visible_infinite_is_limit_witness :
  exists D : R,
    forall pd : R,
      (D <= Rabs (pd - 1))%R ->
      exists v vinf : R,
        Probability (Condition (default_observer NaN false) (Fin pd) false) (Fin 1)
        = Fin v
        /\ Probability (Condition (default_observer NaN false) PInf false) (Fin 1)
           = Fin vinf
        /\ (Rabs (v - vinf) < 0.001)%R.
Proof.
  apply (Probability_visible_infinite_is_limit (default_observer NaN false)
           (- ln 0.5 / 1.0) 0.01 0.003 0.00142478 6.0 1 0.001).
  - apply default_observer_finite.
  - lra.
  - lra.
  - lra.
  - lra.
Defined.

Lemma mul_PInf_is_infinite_or_NaN {arithmetic : DoubleArithmetic} x :
  (exists s, Rounded.mul x PInf = Inf s) \/ Rounded.mul x PInf = NaN.
Proof.
  destruct x as [a | s | ]; cbn.
  - destruct (Req_dec_T a 0); [right; reflexivity | left; eexists; reflexivity].
  - left. eexists. reflexivity.
  - right. reflexivity.
Qed.

Lemma mul_infinite_is_infinite_or_NaN {arithmetic : DoubleArithmetic} s y :
  (exists s', Rounded.mul (Inf s) y = Inf s') \/ Rounded.mul (Inf s) y = NaN.
Proof.
  destruct y as [a | s' | ]; cbn.
  - destruct (Req_dec_T a 0); [right; reflexivity | left; eexists; reflexivity].
  - left. eexists. reflexivity.
  - right. reflexivity.
Qed.

(** X13.  Overflow breaks the branch for a finite prediction under
    occlusion.  When [exp (prediction * rate)] and the exponential of the
    numerator both overflow to +infinity, the quotient is
    infinity / infinity and [Probability] returns NaN, whatever the
    parameters and the observation, and although the branch for an
    infinite prediction returns the limit.  This holds in every arithmetic
    that rounds as described above; with the default parameters and
    binary64's range it happens from predicted depth 1025 on. *)
Theorem Probability_occluded_overflow {arithmetic : DoubleArithmetic}
  (this : KinectObserver) (p : R) (observation : Scalar) :
  this.(occlusion_) = true ->
  this.(prediction_) = Fin p ->
  Rounded.exp (Rounded.mul this.(prediction_) this.(exponential_rate_)) = PInf ->
  Rounded.exp (Rounded.occlusion_exponent this observation) = PInf ->
  Rounded.Probability this observation = NaN.
Proof.
  intros Hocc Hp HX HE.
  unfold Rounded.occlusion_exponent, Rounded.sigma in HE.
  unfold Rounded.Probability. rewrite Hocc. rewrite Hp in *.
  cbn [negb std.isinf] in *. rewrite HX, HE.
  assert (HD : Rounded.mul (Fin 2) (Rounded.sub PInf (Fin 1)) = PInf).
  { unfold Rounded.sub. cbn. destruct (Req_dec_T 2 0); [lra | ].
    rewrite Rsignbit_pos by lra. reflexivity. }
  rewrite HD.
  match goal with
  | |- Rounded.add ?T (Rounded.div (Rounded.mul (Rounded.mul ?A PInf) ?F) PInf) = NaN =>
      assert (HN : Rounded.div (Rounded.mul (Rounded.mul A PInf) F) PInf = NaN)
  end.
  { match goal with
    | |- Rounded.div (Rounded.mul (Rounded.mul ?A PInf) ?F) PInf = NaN =>
        destruct (mul_PInf_is_infinite_or_NaN A) as [[s ->] | ->];
          [destruct (mul_infinite_is_infinite_or_NaN s F) as [[s' ->] | ->] | ];
          reflexivity
    end. }
  rewrite HN.
  destruct (Rounded.div (tail_weight_ this) (max_depth_ this)); reflexivity.
Qed.

Lemma Probability_occluded_overflow_witness :
  @Rounded.Probability binary64_range
    (Condition (default_observer NaN false) (Fin 1025) true) (Fin 1) = NaN.
Proof.
  destruct (default_observer_finite NaN false) as (Hr & Htw & Hms & Hsf & Hmd).
  pose proof ln_2_bounds as Hln. pose proof default_rate as Hrate.
  apply (@Probability_occluded_overflow binary64_range _ 1025).
  - reflexivity.
  - reflexivity.
  - cbn [Condition prediction_ exponential_rate_]. rewrite Hr.
    rewrite mul_in_range by in_range.
    apply exp_overflow. nra.
  - unfold Rounded.occlusion_exponent, Rounded.sigma.
    cbn [Condition occlusion_ prediction_ tail_weight_ max_depth_ model_sigma_
           sigma_factor_ exponential_rate_ std.isinf].
    rewrite Hr, Hms, Hsf.
    repeat (first [ rewrite mul_in_range by in_range
                  | rewrite add_in_range by in_range
                  | rewrite sub_in_range by in_range ]; cbn [Rounded.neg Sneg]).
    apply exp_overflow. nra.
Defined.

End KinectObserverFurther.

(* ================================================================= *)
(** ** Further properties of ArmRobotAnimator *)

(** Successive calls of [animate] on one animator, with the same two
    vectors, one [(dt, dilation)] pair per call. *)
Fixpoint animate_calls (this : ArmRobotAnimator) (h : store)
  (current next : ref) (steps : list (Scalar * Scalar))
  : option (ArmRobotAnimator * store) :=
  match steps with
  | [] => Some (this, h)
  | (dt, dilation) :: steps' =>
      match animate this h current dt dilation next with
      | None => None
      | Some (this', h') => animate_calls this' h' current next steps'
      end
  end.

Section AnimateFurther.
Local Open Scope scalar_scope.

Lemma animate_as_fold this h current dt dilation next :
  animate this h current dt dilation next =
  match fold_left
          (fun s k => assign_next (this.(t_) + dt) dt dilation current next k s)
          (Zrange 6 7 ++ Zrange 21 7) (Some h) with
  | Some h' => Some ({| t_ := this.(t_) + dt |}, h')
  | None => None
  end.
Proof.
  unfold animate. cbv zeta. cbn [t_].
  rewrite (for_loop_fold 7 6 (6 + 7)) by reflexivity.
  rewrite (for_loop_fold 7 (6 + 7 + 8) (6 + 2 * 7 + 8)) by reflexivity.
  rewrite <- fold_left_app. reflexivity.
Qed.

Lemma assign_next_fold_None t dt dilation current next idx :
  fold_left (fun s k => assign_next t dt dilation current next k s) idx None = None.
Proof. induction idx as [ | i idx IH]; [reflexivity | exact IH]. Qed.

Lemma assign_next_Some_inv t dt dilation current next i h h' :
  assign_next t dt dilation current next i (Some h) = Some h' ->
  (0 <= i < Z.of_nat (length (h current)))%Z
  /\ (0 <= i < Z.of_nat (length (h next)))%Z
  /\ (forall r, length (h' r) = length (h r)).
Proof.
  unfold assign_next, vec_read, vec_write. intros H.
  destruct (Z.leb_spec 0 i) as [H0 | H0]; [ | discriminate].
  destruct (nth_error (h current) (Z.to_nat i)) as [c | ] eqn:Ec; [ | discriminate].
  cbn [andb] in H.
  destruct (Z.ltb_spec i (Z.of_nat (length (h next)))) as [Hn | Hn]; [ | discriminate].
  inversion H; subst h'. clear H.
  assert (Hc : (Z.to_nat i < length (h current))%nat).
  { apply nth_error_Some. rewrite Ec. discriminate. }
  repeat split; try lia.
  intros r. unfold store_set. destruct (Nat.eqb_spec r next) as [-> | Hr].
  - apply list_update_length.
  - reflexivity.
Qed.

Lemma assign_next_fold_inv t dt dilation current next idx : forall h h',
  fold_left (fun s k => assign_next t dt dilation current next k s) idx (Some h)
  = Some h' ->
  (forall r, length (h' r) = length (h r))
  /\ (forall i, In i idx ->
        (0 <= i < Z.of_nat (length (h current)))%Z
        /\ (0 <= i < Z.of_nat (length (h next)))%Z).
Proof.
  induction idx as [ | i idx IH]; intros h h' H; cbn [fold_left] in H.
  - inversion H; subst. split; [reflexivity | intros i []].
  - destruct (assign_next t dt dilation current next i (Some h)) as [h1 | ] eqn:E.
    + destruct (assign_next_Some_inv _ _ _ _ _ _ _ _ E) as (Hc & Hn & Hlen).
      destruct (IH h1 h' H) as (Hlen' & Hidx). split.
      * intros r. rewrite Hlen', Hlen. reflexivity.
      * intros j [<- | Hj]; [split; assumption | ].
        destruct (Hidx j Hj) as [Hjc Hjn]. rewrite !Hlen in *. split; assumption.
    + rewrite assign_next_fold_None in H. discriminate.
Qed.

(** What a successful call leaves in the store. *)
Lemma animate_assigned this h current dt dilation next :
  (28 <= length (h current))%nat ->
  (28 <= length (h next))%nat ->
  exists h' : store,
    animate this h current dt dilation next = Some ({| t_ := this.(t_) + dt |}, h')
    /\ assigned (this.(t_) + dt) dt dilation current next h
         (Zrange 6 7 ++ Zrange 21 7) h'.
Proof.
  intros Hc Hn.
  destruct (assign_next_fold (this.(t_) + dt) dt dilation current next h
              (Zrange 6 7 ++ Zrange 21 7) [] h
              (assigned_start _ dt dilation current next h) arm_index_NoDup)
    as (h' & Hfold & Hinv).
  { intros i Hi. apply arm_index_list in Hi. unfold arm_index in Hi.
    split; [intros [] | lia]. }
  exists h'. split.
  - rewrite animate_as_fold, Hfold. reflexivity.
  - rewrite app_nil_r in Hinv. exact Hinv.
Qed.

(** X14.  [animate] is defined exactly on vectors that have the 28 components it
    indexes: with a shorter [current] or [next] the call reads or writes
    past the end of the vector. *)
Theorem animate_defined_iff
  (this : ArmRobotAnimator) (h : store) (current next : ref)
  (dt dilation : Scalar) :
  (exists result, animate this h current dt dilation next = Some result)
  <-> (28 <= length (h current))%nat /\ (28 <= length (h next))%nat.
Proof.
  split.
  - intros [result H]. rewrite animate_as_fold in H.
    destruct (fold_left _ _ _) as [h' | ] eqn:E; [ | discriminate].
    destruct (assign_next_fold_inv _ _ _ _ _ _ _ _ E) as (_ & Hidx).
    assert (H27 : In 27%Z (Zrange 6 7 ++ Zrange 21 7)).
    { apply arm_index_list. unfold arm_index. lia. }
    destruct (Hidx _ H27) as [Hc Hn]. lia.
  - intros [Hc Hn].
    destruct (animate_assigned this h current dt dilation next Hc Hn) as (h' & H & _).
    eexists. exact H.
Qed.

Lemma vec_read_ext (v w : VectorXd) :
  (forall i : Z, vec_read v i = vec_read w i) -> v = w.
Proof.
  intros H. apply nth_error_ext. intros n.
  specialize (H (Z.of_nat n)). unfold vec_read in H.
  destruct (Z.leb_spec 0 (Z.of_nat n)); [ | lia].
  rewrite Nat2Z.id in H. exact H.
Qed.

Lemma arm_index_dec (i : Z) : {arm_index i} + {~ arm_index i}.
Proof.
  unfold arm_index.
  destruct (Z_le_dec 6 i), (Z_le_dec i 12), (Z_le_dec 21 i), (Z_le_dec i 27);
    first [left; lia | right; lia].
Qed.

(** X15.  Updating a state in place gives the same vector as updating a
    separate copy: when [current] holds the same components as [next], the
    call with [next] passed for both arguments leaves in [next] what the
    call with the separate [current] leaves there. *)
Theorem animate_in_place_agrees
  (this : ArmRobotAnimator) (h : store) (current next : ref)
  (dt dilation : Scalar) :
  h current = h next ->
  (28 <= length (h next))%nat ->
  exists h1 h2 : store,
    animate this h current dt dilation next
    = Some ({| t_ := this.(t_) + dt |}, h1)
    /\ animate this h next dt dilation next
       = Some ({| t_ := this.(t_) + dt |}, h2)
    /\ h1 next = h2 next.
Proof.
  intros Hsame Hn.
  assert (Hc : (28 <= length (h current))%nat) by (rewrite Hsame; exact Hn).
  destruct (animate_assigned this h current dt dilation next Hc Hn)
    as (h1 & H1 & (_ & _ & Hin1 & Hout1)).
  destruct (animate_assigned this h next dt dilation next Hn Hn)
    as (h2 & H2 & (_ & _ & Hin2 & Hout2)).
  exists h1, h2. split; [exact H1 | ]. split; [exact H2 | ].
  apply vec_read_ext. intros i.
  destruct (arm_index_dec i) as [Hi | Hi].
  - apply arm_index_list in Hi.
    destruct (Hin1 i Hi) as (c1 & Hc1 & Hr1).
    destruct (Hin2 i Hi) as (c2 & Hc2 & Hr2).
    rewrite Hsame in Hc1. rewrite Hc1 in Hc2. inversion Hc2; subst c2.
    rewrite Hr1, Hr2. reflexivity.
  - assert (Hi' : ~ In i (Zrange 6 7 ++ Zrange 21 7)).
    { intros Hd. apply Hi, arm_index_list, Hd. }
    rewrite (Hout1 i Hi'), (Hout2 i Hi'). reflexivity.
Qed.

Lemma animate_in_place_agrees_witness :
  let h : store := fun _ => repeat (Fin 1) 28 in
  exists h1 h2 : store,
    animate new_ArmRobotAnimator h 0%nat (Fin 1) (Fin 2) 1%nat
    = Some ({| t_ := Fin 0 + Fin 1 |}, h1)
    /\ animate new_ArmRobotAnimator h 1%nat (Fin 1) (Fin 2) 1%nat
       = Some ({| t_ := Fin 0 + Fin 1 |}, h2)
    /\ h1 1%nat = h2 1%nat.
Proof.
  cbv zeta.
  apply (animate_in_place_agrees new_ArmRobotAnimator
           (fun _ => repeat (Fin 1) 28) 0%nat 1%nat (Fin 1) (Fin 2)).
  - reflexivity.
  - rewrite repeat_length. lia.
Defined.

(** X16.  Over any number of calls the accumulated time is the sum of the time
    steps, added in call order to the time the animator started with, and
    the calls keep what one call keeps: the components of [next] outside
    the two arm segments, the length of [next], and every other vector. *)
Theorem animate_calls_accumulate (steps : list (Scalar * Scalar)) :
  forall (this : ArmRobotAnimator) (h : store) (current next : ref),
  (28 <= length (h current))%nat ->
  (28 <= length (h next))%nat ->
  exists (this' : ArmRobotAnimator) (h' : store),
    animate_calls this h current next steps = Some (this', h')
    /\ this'.(t_) = fold_left Sadd (map fst steps) this.(t_)
    /\ (forall i : Z,
          ~ arm_index i -> vec_read (h' next) i = vec_read (h next) i)
    /\ length (h' next) = length (h next)
    /\ (forall r : ref, r <> next -> h' r = h r).
Proof.
  induction steps as [ | [dt dilation] steps IH]; intros this h current next Hc Hn.
  - exists this, h. repeat split.
  - destruct (animate_assigned this h current dt dilation next Hc Hn)
      as (h1 & H1 & (Hr1 & Hlen1 & _ & Hout1)).
    assert (Hc1 : (28 <= length (h1 current))%nat).
    { destruct (Nat.eq_dec current next) as [-> | E];
        [rewrite Hlen1; exact Hn | rewrite (Hr1 current E); exact Hc]. }
    assert (Hn1 : (28 <= length (h1 next))%nat) by (rewrite Hlen1; exact Hn).
    destruct (IH {| t_ := this.(t_) + dt |} h1 current next Hc1 Hn1)
      as (this' & h' & Hcalls & Ht & Hout & Hlen & Hr).
    exists this', h'. cbn [animate_calls]. rewrite H1.
    split; [exact Hcalls | ]. split; [exact Ht | ]. split; [ | split].
    + intros i Hi. rewrite (Hout i Hi). apply Hout1.
      intros Hd. apply Hi, arm_index_list, Hd.
    + rewrite Hlen. exact Hlen1.
    + intros r Hrn. rewrite (Hr r Hrn). apply Hr1, Hrn.
Qed.

Lemma animate_calls_accumulate_witness :
  let h : store := fun _ => repeat (Fin 1) 28 in
  exists (this' : ArmRobotAnimator) (h' : store),
    animate_calls new_ArmRobotAnimator h 0%nat 1%nat
      [(Fin 1, Fin 2); (Fin 3, Fin 2)] = Some (this', h')
    /\ this'.(t_) = Fin 0 + Fin 1 + Fin 3
    /\ (forall i : Z,
          ~ arm_index i -> vec_read (h' 1%nat) i = vec_read (h 1%nat) i)
    /\ length (h' 1%nat) = length (h 1%nat)
    /\ (forall r : ref, r <> 1%nat -> h' r = h r).
Proof.
  cbv zeta.
  apply (animate_calls_accumulate [(Fin 1, Fin 2); (Fin 3, Fin 2)]
           new_ArmRobotAnimator (fun _ => repeat (Fin 1) 28) 0%nat 1%nat).
  - rewrite repeat_length. lia.
  - rewrite repeat_length. lia.
Defined.

Section RoundedAnimateFacts.
Context {arithmetic : DoubleArithmetic}.

Variables (t dt dilation : Scalar) (current next : ref) (h0 : store).

Let increment : Scalar :=
  Rounded.mul (Rounded.div (Rounded.mul (Fin 0.1) dt) dilation)
    (Rounded.sin (Rounded.div t dilation)).




End RoundedAnimateFacts.




Lemma sin_div_zero (t : Scalar) : std.sin (t / Fin 0) = NaN.
Proof.
  destruct t as [a | s | ]; cbn [Sdiv]; [ | reflexivity | reflexivity].
  destruct (Req_dec_T 0 0) as [_ | E]; [ | contradiction].
  destruct (Req_dec_T a 0); reflexivity.
Qed.

(** X18.  A zero dilation is not rejected: the divisions by it make the
    increment NaN, and the call overwrites both arm segments of [next]
    with NaN, whatever the time, the time step and the components of
    [current]. *)
Theorem animate_zero_dilation
  (this : ArmRobotAnimator) (h : store) (current next : ref) (dt : Scalar) :
  (28 <= length (h current))%nat ->
  (28 <= length (h next))%nat ->
  exists h' : store,
    animate this h current dt (Fin 0) next = Some ({| t_ := this.(t_) + dt |}, h')
    /\ (forall i : Z, arm_index i -> vec_read (h' next) i = Some NaN).
Proof.
  intros Hc Hn.
  destruct (animate_assigned this h current dt (Fin 0) next Hc Hn)
    as (h' & H & (_ & _ & Hin & _)).
  exists h'. split; [exact H | ].
  intros i Hi. apply arm_index_list in Hi.
  destruct (Hin i Hi) as (c & _ & Hr).
  rewrite sin_div_zero in Hr.
  rewrite Hr. f_equal.
  destruct c, (Fin 0.1 * dt / Fin 0); reflexivity.
Qed.

Lemma animate_zero_dilation_witness :
  let h : store := fun _ => repeat (Fin 1) 28 in
  exists h' : store,
    animate new_ArmRobotAnimator h 0%nat (Fin 1) (Fin 0) 1%nat
    = Some ({| t_ := Fin 0 + Fin 1 |}, h')
    /\ (forall i : Z, arm_index i -> vec_read (h' 1%nat) i = Some NaN).
Proof.
  cbv zeta.
  apply (animate_zero_dilation new_ArmRobotAnimator (fun _ => repeat (Fin 1) 28)
           0%nat 1%nat (Fin 1)).
  - rewrite repeat_length. lia.
  - rewrite repeat_length. lia.
Defined.

End AnimateFurther.

(* ================================================================= *)
(** ** Further properties of RotaryTrackerBuilder *)

Lemma Zrange_firstn lo n m :
  (n <= m)%nat -> firstn n (Zrange lo m) = Zrange lo n.
Proof.
  revert lo m. induction n as [ | n IH]; intros lo m Hnm; [reflexivity | ].
  destruct m as [ | m]; [lia | ]. cbn [Zrange firstn]. rewrite IH by lia.
  reflexivity.
Qed.

Section RotaryTrackerBuilderFurther.
Context `{TrackerInterface}.

(** X19.  With no joints, or a negative joint count, the loop body never runs:
    neither builder is asked for a model, the vector is empty, and the
    tracker is constructed from the empty vector. *)
Theorem create_joint_filters_no_joints (this : RotaryTrackerBuilder) :
  (num_joints this.(kinematics_) <= 0)%Z ->
  create_joint_filters this = []
  /\ build this = new_Tracker [] this.(kinematics_).
Proof.
  intros Hn.
  assert (E : create_joint_filters this = []).
  { rewrite create_joint_filters_map.
    replace (Z.to_nat (num_joints (kinematics_ this))) with 0%nat by lia.
    reflexivity. }
  split; [exact E | ]. unfold build. cbv zeta. rewrite E. reflexivity.
Qed.

(** X20.  The filter of a joint does not depend on how many joints there are:
    with the same two model builders, the filters for fewer joints are the
    first filters of those for more joints. *)
Theorem create_joint_filters_prefix (this more : RotaryTrackerBuilder) :
  this.(transition_builder_) = more.(transition_builder_) ->
  this.(sensor_builder_) = more.(sensor_builder_) ->
  (num_joints this.(kinematics_) <= num_joints more.(kinematics_))%Z ->
  create_joint_filters this =
  firstn (Z.to_nat (num_joints this.(kinematics_))) (create_joint_filters more).
Proof.
  intros Ht Hs Hn. rewrite !create_joint_filters_map.
  rewrite firstn_map, Zrange_firstn by lia.
  unfold joint_filter_of. rewrite Ht, Hs. reflexivity.
Qed.

End RotaryTrackerBuilderFurther.

Definition no_joint_builder : @RotaryTrackerBuilder pair_interface :=
  @Build_RotaryTrackerBuilder pair_interface 0%Z 100%Z 200%Z.

Definition five_joint_builder : @RotaryTrackerBuilder pair_interface :=
  @Build_RotaryTrackerBuilder pair_interface 5%Z 100%Z 200%Z.

Lemma create_joint_filters_no_joints_witness :
  create_joint_filters no_joint_builder = []
  /\ build no_joint_builder = ([], 0%Z).
Proof.
  apply (create_joint_filters_no_joints no_joint_builder).
  cbn. lia.
Defined.

Lemma create_joint_filters_prefix_witness :
  create_joint_filters three_joint_builder =
  firstn 3 (create_joint_filters five_joint_builder).
Proof.
  apply (create_joint_filters_prefix three_joint_builder five_joint_builder).
  - reflexivity.
  - reflexivity.
  - cbn. lia.
Defined.
